(** * ImApp: the Image/Pixel value type, its GPU texture lifecycle and the
    App layer stack, embedded shallowly from [imapp.hpp] and [imapp.cpp]. *)

From Stdlib Require Import ZArith List String Ascii Lia Bool.
Import ListNotations.
Open Scope Z_scope.

(** ** 32-bit unsigned arithmetic *)

Definition u32_modulus : Z := 2 ^ 32.

(** [std::uint32_t] arithmetic: results wrap modulo 2^32. *)
Definition u32 (z : Z) : Z := z mod u32_modulus.

Definition is_u32 (z : Z) : Prop := 0 <= z < u32_modulus.

(** ** Exceptions thrown by the library *)

Inductive exn :=
| runtime_error (msg : string)
| out_of_range (msg : string)
| filesystem_error.

(** Outcome of a C++ call: a value, a thrown exception, or undefined
    behaviour (e.g. [std::vector::operator[]] past the end). *)
Inductive result (A : Type) :=
| Ok (a : A)
| Throw (e : exn)
| Undefined.
Arguments Ok {A} a.
Arguments Throw {A} e.
Arguments Undefined {A}.

(** ** Pixel *)

Record Pixel := mkPixel { r_ : Z; g_ : Z; b_ : Z; a_ : Z }.

(** [Pixel() : r_(255), g_(255), b_(255), a_(255) {}] *)
Definition Pixel_default : Pixel := mkPixel 255 255 255 255.

(** [Pixel(R, G, B, A = 255)] *)
Definition Pixel_rgba (R G B A : Z) : Pixel := mkPixel R G B A.

(** ** std::vector<Pixel> operations *)

(** [std::vector<Pixel>(n, value)] *)
Definition vec_fill (n : Z) (v : Pixel) : list Pixel := repeat v (Z.to_nat n).

(** [std::vector<Pixel>::resize(n)]: truncates, or appends default-inserted
    (value-initialised, i.e. [Pixel()]) elements at the end. *)
Definition vec_resize (n : Z) (v : list Pixel) : list Pixel :=
  firstn (Z.to_nat n) v ++ repeat Pixel_default (Z.to_nat n - List.length v)%nat.

(** [v[i]] read: undefined past the end. *)
Definition vec_get (v : list Pixel) (i : Z) : result Pixel :=
  if (0 <=? i) then
    match nth_error v (Z.to_nat i) with
    | Some p => Ok p
    | None => Undefined
    end
  else Undefined.

Fixpoint list_set {A} (l : list A) (n : nat) (x : A) : list A :=
  match l, n with
  | [], _ => []
  | _ :: t, O => x :: t
  | h :: t, S n' => h :: list_set t n' x
  end.

(** [v[i] = p]: undefined past the end. *)
Definition vec_set (v : list Pixel) (i : Z) (p : Pixel) : result (list Pixel) :=
  if ((0 <=? i) && (Z.to_nat i <? List.length v)%nat)%bool then Ok (list_set v (Z.to_nat i) p)
  else Undefined.

(** ** Image *)

Record Image := mkImage {
  height_ : Z;
  width_ : Z;
  image_ : list Pixel;
  ogl_texture_id_ : option Z
}.

(** [Image(height, width) : height_(height), width_(width),
      image_(height_ * width_, Pixel()), ogl_texture_id_(std::nullopt)]
    The product [height_ * width_] is a [std::uint32_t] product. *)
Definition Image_new (height width : Z) : Image :=
  {| height_ := height;
     width_ := width;
     image_ := vec_fill (u32 (height * width)) Pixel_default;
     ogl_texture_id_ := None |}.

(** The private [Image()] constructor. *)
Definition Image_empty : Image := mkImage 0 0 [] None.

(** [std::uint32_t size() const { return width_ * height_; }] *)
Definition size (img : Image) : Z := u32 (width_ img * height_ img).

(** [void resize(std::uint32_t height, std::uint32_t width)] *)
Definition resize (height width : Z) (img : Image) : Image :=
  {| height_ := height;
     width_ := width;
     image_ := vec_resize (u32 (height * width)) (image_ img);
     ogl_texture_id_ := ogl_texture_id_ img |}.

(** [std::size_t i = w + (h * width_);] -- both operands are
    [std::uint32_t], so the index is computed modulo 2^32. *)
Definition linear_index (img : Image) (h w : Z) : Z := u32 (w + u32 (h * width_ img)).

(** [Pixel& at(std::uint32_t h, std::uint32_t w)] (the const overload has the
    same body). *)
Definition at_ (img : Image) (h w : Z) : result Pixel :=
  if h >=? height_ img then
    Throw (out_of_range "ImApp::Image::at: h must be < height.")
  else if w >=? width_ img then
    Throw (out_of_range "ImApp::Image::at: w must be < width.")
  else vec_get (image_ img) (linear_index img h w).

(** [Pixel& operator[](std::size_t i)] used as an assignment target. *)
Definition set_pixel (img : Image) (i : Z) (p : Pixel) : result Image :=
  match vec_set (image_ img) i p with
  | Ok v => Ok {| height_ := height_ img; width_ := width_ img; image_ := v;
                  ogl_texture_id_ := ogl_texture_id_ img |}
  | Throw e => Throw e
  | Undefined => Undefined
  end.

(** ** The OpenGL texture state touched by [send_to_gpu]/[delete_from_gpu] *)

Inductive gl_param := GL_TEXTURE_MIN_FILTER | GL_TEXTURE_MAG_FILTER.

Inductive gl_call :=
| glGenTextures (name : Z)
| glBindTexture (name : Z)
| glTexParameteri_linear (p : gl_param)
| glPixelStorei_unpack_row_length (v : Z)
| glTexImage2D (width height : Z) (data : list Pixel)
| glDeleteTextures (name : Z).

(** The driver state: the next fresh texture name (the driver's allocator,
    modelled as a counter), the names currently allocated, and the log of
    calls issued so far. *)
Record GL := mkGL {
  gl_next : Z;
  gl_live : list Z;
  gl_log : list gl_call
}.

Definition gl_issue (c : gl_call) (gl : GL) : GL :=
  {| gl_next := gl_next gl; gl_live := gl_live gl; gl_log := gl_log gl ++ [c] |}.

(** [glGenTextures(1, &texture_id)] *)
Definition gl_gen (gl : GL) : Z * GL :=
  let n := gl_next gl in
  (n, {| gl_next := n + 1; gl_live := n :: gl_live gl;
         gl_log := gl_log gl ++ [glGenTextures n] |}).

(** [glDeleteTextures(1, &name)] *)
Definition gl_delete (n : Z) (gl : GL) : GL :=
  {| gl_next := gl_next gl;
     gl_live := filter (fun m => negb (m =? n)) (gl_live gl);
     gl_log := gl_log gl ++ [glDeleteTextures n] |}.

Definition with_texture_id (img : Image) (t : option Z) : Image :=
  {| height_ := height_ img; width_ := width_ img; image_ := image_ img;
     ogl_texture_id_ := t |}.

(** [void Image::send_to_gpu()] *)
Definition send_to_gpu (img : Image) (gl : GL) : Image * GL :=
  match ogl_texture_id_ img with
  | Some t =>
      (* Texture already exists on GPU. We just need to update it. *)
      let gl := gl_issue (glBindTexture t) gl in
      let gl := gl_issue (glTexImage2D (width_ img) (height_ img) (image_ img)) gl in
      (img, gl)
  | None =>
      (* Texture not on GPU yet. Need to do everything from scratch. *)
      let '(texture_id, gl) := gl_gen gl in
      let gl := gl_issue (glBindTexture texture_id) gl in
      let gl := gl_issue (glTexParameteri_linear GL_TEXTURE_MIN_FILTER) gl in
      let gl := gl_issue (glTexParameteri_linear GL_TEXTURE_MAG_FILTER) gl in
      let gl := gl_issue (glPixelStorei_unpack_row_length 0) gl in
      let gl := gl_issue (glTexImage2D (width_ img) (height_ img) (image_ img)) gl in
      (with_texture_id img (Some texture_id), gl)
  end.

(** [void Image::delete_from_gpu()] *)
Definition delete_from_gpu (img : Image) (gl : GL) : Image * GL :=
  match ogl_texture_id_ img with
  | Some t => (with_texture_id img None, gl_delete t gl)
  | None => (img, gl)
  end.

(** [~Image() { this->delete_from_gpu(); }] *)
Definition Image_destroy (img : Image) (gl : GL) : Image * GL := delete_from_gpu img gl.

(** [bool on_gpu() const] *)
Definition on_gpu (img : Image) : bool :=
  match ogl_texture_id_ img with Some _ => true | None => false end.

(** A scope owning an [Image]: whatever the body does -- return normally or
    let an exception propagate -- the destructor runs when the scope is left
    (C++ stack unwinding). *)
Inductive exit_path := Normal_exit | Exception_exit (e : exn).

Definition scoped (body : Image -> GL -> exit_path * Image * GL)
    (img : Image) (gl : GL) : exit_path * Image * GL :=
  let '(how, img, gl) := body img gl in
  let '(img, gl) := Image_destroy img gl in
  (how, img, gl).

(** ** Image::from_file *)

Definition dq : string := String "034"%char EmptyString.
Definition nl : string := String "010"%char EmptyString.

Inductive io_event :=
| Io_exists (fname : string)
| Io_stbi_load (fname : string)
| Io_stbi_image_free.

Fixpoint copy_loop (idx : list nat) (img : Image) (pdata : list Pixel) : result Image :=
  match idx with
  | [] => Ok img
  | i :: rest =>
      match nth_error pdata i with
      | None => Undefined
      | Some p =>
          match set_pixel img (Z.of_nat i) p with
          | Ok img' => copy_loop rest img' pdata
          | Throw e => Throw e
          | Undefined => Undefined
          end
      end
  end.

Definition not_found_message (fname : string) : string :=
  "ImApp::Image::from_file: File with name " ++ dq ++ fname ++ dq ++
  " does not exist." ++ nl.

Definition decode_failure_message (reason : string) : string :=
  "ImApp::Image::from_file: stbi_load failure." ++ nl ++
  "stbi_failure_reason: " ++ reason ++ nl.

Section FromFile.

(** [std::filesystem::exists(fname)]: [Some b], or [None] when it throws
    [std::filesystem::filesystem_error]. *)
Variable fs_exists : string -> option bool.
(** [stbi_load(fname, &w, &h, NULL, 4)]: [Some (w, h, pixels)] or [None]
    (a null pointer). *)
Variable stbi_load : string -> option (Z * Z * list Pixel).
(** [stbi_failure_reason()] after a failed load. *)
Variable stbi_failure_reason : string -> string.

(** [static Image Image::from_file(const std::filesystem::path& fname)];
    the trace records the calls made to the file system and to the codec. *)
Definition from_file (fname : string) : list io_event * result Image :=
  match fs_exists fname with
  | None => ([Io_exists fname], Throw filesystem_error)
  | Some false =>
      ([Io_exists fname], Throw (runtime_error (not_found_message fname)))
  | Some true =>
      match stbi_load fname with
      | None =>
          ([Io_exists fname; Io_stbi_load fname],
           Throw (runtime_error (decode_failure_message (stbi_failure_reason fname))))
      | Some (img_width, img_height, pdata) =>
          let width := u32 img_width in
          let height := u32 img_height in
          let img := Image_new height width in
          ([Io_exists fname; Io_stbi_load fname; Io_stbi_image_free],
           copy_loop (seq 0 (Z.to_nat (size img))) img pdata)
      end
  end.

End FromFile.

(** ** Layers and the App *)

(** The [this] pointer of an [App]. *)
Definition app_ref := nat.

(** A [Layer]: its identity (which object it is) and its [app_] pointer
    ([None] is [nullptr]). The virtual hooks are user code; each call is
    recorded in the App's event trace together with what the layer observes
    through [app()] at that moment. *)
Record Layer := mkLayer { layer_id : nat; app_ : option app_ref }.

(** [Layer() : app_(nullptr) {}] *)
Definition Layer_new (id : nat) : Layer := mkLayer id None.

(** [void set_app_ptr(App* app_ptr)] *)
Definition set_app_ptr (p : app_ref) (l : Layer) : Layer := mkLayer (layer_id l) (Some p).

Inductive event :=
| Ev_on_push (id : nat) (seen_app : option app_ref)
| Ev_render (id : nat)
| Ev_on_kill (id : nat)
| Ev_glfwPollEvents
| Ev_ImGui_ImplOpenGL3_NewFrame
| Ev_ImGui_ImplGlfw_NewFrame
| Ev_ImGui_NewFrame
| Ev_ImGui_Render
| Ev_glViewport
| Ev_glClear
| Ev_ImGui_ImplOpenGL3_RenderDrawData
| Ev_ImGui_UpdatePlatformWindows
| Ev_ImGui_RenderPlatformWindowsDefault
| Ev_glfwSwapBuffers
| Ev_ImGui_ImplOpenGL3_Shutdown
| Ev_ImGui_ImplGlfw_Shutdown
| Ev_ImPlot_DestroyContext
| Ev_ImGui_DestroyContext
| Ev_glfwDestroyWindow
| Ev_glfwTerminate.

Record App := mkApp {
  self : app_ref;
  layers_ : list Layer;
  viewports_enabled : bool;  (* [io_->ConfigFlags & ImGuiConfigFlags_ViewportsEnable] *)
  trace : list event
}.

(** A freshly constructed [App] (window and contexts created, no layers). *)
Definition App_new (p : app_ref) : App := mkApp p [] false [].

Definition emit (e : list event) (a : App) : App :=
  mkApp (self a) (layers_ a) (viewports_enabled a) (trace a ++ e).

Definition set_layers (ls : list Layer) (a : App) : App :=
  mkApp (self a) ls (viewports_enabled a) (trace a).

(** [layers_.back()] *)
Definition back (ls : list Layer) : option Layer := last (map Some ls) None.

(** [layers_.back()->set_app_ptr(p)] *)
Fixpoint set_back_app_ptr (p : app_ref) (ls : list Layer) : list Layer :=
  match ls with
  | [] => []
  | [l] => [set_app_ptr p l]
  | l :: t => l :: set_back_app_ptr p t
  end.

(** [layers_.back()->on_push()] *)
Definition call_on_push_back (a : App) : App :=
  match back (layers_ a) with
  | Some l => emit [Ev_on_push (layer_id l) (app_ l)] a
  | None => a
  end.

(** [void push_layer(std::unique_ptr<Layer> layer)] *)
Definition push_layer (layer : Layer) (a : App) : App :=
  let a := set_layers (layers_ a ++ [layer]) a in
  let a := call_on_push_back a in
  set_layers (set_back_app_ptr (self a) (layers_ a)) a.

(** One iteration of the main loop of [App::run]. *)
Definition frame (a : App) : list event :=
  [Ev_glfwPollEvents; Ev_ImGui_ImplOpenGL3_NewFrame; Ev_ImGui_ImplGlfw_NewFrame;
   Ev_ImGui_NewFrame] ++
  map (fun l => Ev_render (layer_id l)) (layers_ a) ++
  [Ev_ImGui_Render; Ev_glViewport; Ev_glClear; Ev_ImGui_ImplOpenGL3_RenderDrawData] ++
  (if viewports_enabled a
   then [Ev_ImGui_UpdatePlatformWindows; Ev_ImGui_RenderPlatformWindowsDefault]
   else []) ++
  [Ev_glfwSwapBuffers].

(** [void App::run()]: [glfwWindowShouldClose] answers false [frames] times
    and then true. *)
Fixpoint run_loop (frames : nat) (a : App) : App :=
  match frames with
  | O => a
  | S n => run_loop n (emit (frame a) a)
  end.

Definition run (frames : nat) (a : App) : App := run_loop frames a.

(** [App::~App()] *)
Definition App_destroy (a : App) : App :=
  let a := emit (map (fun l => Ev_on_kill (layer_id l)) (layers_ a)) a in
  emit [Ev_ImGui_ImplOpenGL3_Shutdown; Ev_ImGui_ImplGlfw_Shutdown;
        Ev_ImPlot_DestroyContext; Ev_ImGui_DestroyContext;
        Ev_glfwDestroyWindow; Ev_glfwTerminate] a.

(** ** Reachable images *)

(** How an [Image] comes into existence. *)
Inductive image_created : Image -> Prop :=
| created_new h w : is_u32 h -> is_u32 w -> image_created (Image_new h w)
| created_empty : image_created Image_empty
| created_from_file fe sl sr fname tr img :
    from_file fe sl sr fname = (tr, Ok img) -> image_created img.

(** The operations that change an existing [Image]. *)
Inductive image_step : Image -> Image -> Prop :=
| step_resize h w img : is_u32 h -> is_u32 w -> image_step img (resize h w img)
| step_set_pixel img i p img' : set_pixel img i p = Ok img' -> image_step img img'
| step_send_to_gpu img gl : image_step img (fst (send_to_gpu img gl))
| step_delete_from_gpu img gl : image_step img (fst (delete_from_gpu img gl)).

Inductive reachable : Image -> Prop :=
| reach_init img : image_created img -> reachable img
| reach_step img img' : reachable img -> image_step img img' -> reachable img'.

(** Number of texture objects allocated in a log of GL calls. *)
Fixpoint gen_count (log : list gl_call) : nat :=
  match log with
  | [] => O
  | glGenTextures _ :: t => S (gen_count t)
  | _ :: t => gen_count t
  end.

(** ** Byte layout of the pixel buffer *)

(** [reinterpret_cast<unsigned char*>(image_.data())]: a [Pixel] is four
    [std::uint8_t] members laid out r, g, b, a. *)
Definition pixel_bytes (p : Pixel) : list Z := [r_ p; g_ p; b_ p; a_ p].

Definition image_bytes (img : Image) : list Z := flat_map pixel_bytes (image_ img).

(** [reinterpret_cast<Pixel*>(data)] over a 4-channel byte buffer. *)
Fixpoint pixels_of_bytes (bs : list Z) : list Pixel :=
  match bs with
  | r :: g :: b :: a :: rest => mkPixel r g b a :: pixels_of_bytes rest
  | _ => []
  end.

(** [from_file] over the byte buffer [stbi_load] really returns
    ([req_comp = 4]), read through [reinterpret_cast<Pixel*>]. *)
Definition from_file_bytes (fe : string -> option bool)
    (stbi_load_bytes : string -> option (Z * Z * list Z)) (sr : string -> string)
    (fname : string) : list io_event * result Image :=
  from_file fe
    (fun f => match stbi_load_bytes f with
              | Some (w, h, bs) => Some (w, h, pixels_of_bytes bs)
              | None => None
              end) sr fname.

(** ** 32-bit [int] arithmetic *)

Definition int_min : Z := - 2 ^ 31.
Definition int_max : Z := 2 ^ 31 - 1.

(** [static_cast<int>(std::uint32_t)]: modular conversion. *)
Definition int_of_u32 (z : Z) : Z := if u32 z <? 2 ^ 31 then u32 z else u32 z - 2 ^ 32.

(** Signed [int] multiplication: overflow is undefined behaviour. *)
Definition int_mul (a b : Z) : result Z :=
  let p := a * b in
  if ((int_min <=? p) && (p <=? int_max))%bool then Ok p else Undefined.

(** ** Image::save_png, Image::save_jpg *)

Section Save.

(** [stbi_write_png(fname, w, h, comp, data, stride)] and
    [stbi_write_jpg(fname, w, h, comp, data, quality)]: nonzero on success. *)
Variable stbi_write_png : string -> Z -> Z -> Z -> list Z -> Z -> Z.
Variable stbi_write_jpg : string -> Z -> Z -> Z -> list Z -> Z -> Z.

(** [bool Image::save_png(const std::filesystem::path& fname)] *)
Definition save_png (img : Image) (fname : string) : result bool :=
  let data := image_bytes img in
  let width := int_of_u32 (width_ img) in
  let height := int_of_u32 (height_ img) in
  match int_mul 4 width with
  | Ok stride =>
      let err := stbi_write_png fname width height 4 data stride in
      Ok (negb (err =? 0))
  | Throw e => Throw e
  | Undefined => Undefined
  end.

(** [bool Image::save_jpg(const std::filesystem::path& fname)] *)
Definition save_jpg (img : Image) (fname : string) : bool :=
  let data := image_bytes img in
  let width := int_of_u32 (width_ img) in
  let height := int_of_u32 (height_ img) in
  let err := stbi_write_jpg fname width height 4 data 100 in
  negb (err =? 0).

End Save.

(** ** App::set_icon *)

(** [GLFWimage] *)
Record GLFWimage := mkGLFWimage { gi_width : Z; gi_height : Z; gi_pixels : list Z }.

(** [void App::set_icon(const Image& image)]: the [GLFWimage] handed to
    [glfwSetWindowIcon]. [&image[0]] on an empty buffer is undefined. *)
Definition set_icon (image : Image) : result GLFWimage :=
  match vec_get (image_ image) 0 with
  | Ok _ =>
      Ok {| gi_width := int_of_u32 (width_ image);
            gi_height := int_of_u32 (height_ image);
            gi_pixels := image_bytes image |}
  | Throw e => Throw e
  | Undefined => Undefined
  end.

(** ** Copying an Image *)

(** [Image] declares a destructor but no copy constructor, so the implicit
    member-wise copy constructor is used: the copy carries the same
    [ogl_texture_id_]. *)
Definition Image_copy (img : Image) : Image :=
  {| height_ := height_ img; width_ := width_ img; image_ := image_ img;
     ogl_texture_id_ := ogl_texture_id_ img |}.

(** ** Unchecked row/column access *)

(** [Pixel& operator()(std::uint32_t h, std::uint32_t w)] (and its const
    overload): no bounds check. *)
Definition pixel_at (img : Image) (h w : Z) : result Pixel :=
  vec_get (image_ img) (linear_index img h w).

(** ** ImGui configuration flags *)

(** [enable_docking], [enable_viewports], [enable_gamepad],
    [enable_keyboard]: [io_->ConfigFlags |= flag]. *)
Definition enable_flag (flag config_flags : Z) : Z := Z.lor config_flags flag.

(** [disable_docking], [disable_viewports], [disable_gamepad],
    [disable_keyboard]: [io_->ConfigFlags &= ~(flag)]. *)
Definition disable_flag (flag config_flags : Z) : Z := Z.land config_flags (Z.lnot flag).

(** [io_->ConfigFlags & flag] tested as a condition. *)
Definition flag_set (flag config_flags : Z) : bool := negb (Z.land config_flags flag =? 0).

(** ** zlib_compression_for_stbiw *)

Inductive mem_event := Ev_malloc (n : Z) | Ev_free.

Section Zlib.

Variable compressBound : Z -> Z.
(** [std::malloc(n)] succeeds or returns NULL. *)
Variable malloc_ok : Z -> bool.
(** [compress2(buf, &bufSize, data, data_len, quality)]: [Some n] is [Z_OK]
    with [bufSize] updated to [n]; [None] is any other return code. *)
Variable compress2 : Z -> list Z -> Z -> Z -> option Z.

(** [unsigned char* zlib_compression_for_stbiw(data, data_len, out_len,
    quality)]: the memory events, the returned buffer ([None] is NULL,
    [Some n] a buffer of [n] compressed bytes) and the final [*out_len]. *)
Definition zlib_compression_for_stbiw (data : list Z) (data_len out_len quality : Z)
    : list mem_event * option Z * Z :=
  let bufSize := compressBound data_len in
  if negb (malloc_ok bufSize) then ([Ev_malloc bufSize], None, out_len)
  else
    match compress2 bufSize data data_len quality with
    | None => ([Ev_malloc bufSize; Ev_free], None, out_len)
    | Some n => ([Ev_malloc bufSize], Some n, n)
    end.

End Zlib.

(** ** Pushing several layers *)

Fixpoint push_layers (ls : list Layer) (a : App) : App :=
  match ls with
  | [] => a
  | l :: rest => push_layers rest (push_layer l a)
  end.

Fixpoint count_ev (p : event -> bool) (es : list event) : nat :=
  match es with
  | [] => O
  | e :: rest => if p e then S (count_ev p rest) else count_ev p rest
  end.

Definition is_swap (e : event) : bool :=
  match e with Ev_glfwSwapBuffers => true | _ => false end.

Definition is_render_of (id : nat) (e : event) : bool :=
  match e with Ev_render i => Nat.eqb i id | _ => false end.

(** Every allocated texture name is below the allocator's next name. *)
Definition gl_wf (gl : GL) : Prop := forall m, In m (gl_live gl) -> m < gl_next gl.

(** [img.at(h, w) = p]: assignment through the reference returned by the
    checked accessor. *)
Definition at_assign (img : Image) (h w : Z) (p : Pixel) : result Image :=
  if h >=? height_ img then
    Throw (out_of_range "ImApp::Image::at: h must be < height.")
  else if w >=? width_ img then
    Throw (out_of_range "ImApp::Image::at: w must be < width.")
  else set_pixel img (linear_index img h w) p.

Definition png_demo_bytes : list Z := [255; 255; 255; 255; 0; 0; 0; 255].

(** A lossless in-memory codec: writing succeeds only for the 2 x 1 image
    with bytes [png_demo_bytes], which the loader then returns. *)
Definition png_demo_writer (f : string) (w h c : Z) (d : list Z) (s : Z) : Z :=
  if ((w =? 2) && (h =? 1))%bool then
    if list_eq_dec Z.eq_dec d png_demo_bytes then 1 else 0
  else 0.

(** ** Helper lemmas *)

Lemma gen_count_app (l1 l2 : list gl_call) :
  gen_count (l1 ++ l2) = (gen_count l1 + gen_count l2)%nat.
Proof.
  induction l1 as [|c l1 IH]; [reflexivity|].
  destruct c; simpl; rewrite ?IH; reflexivity.
Qed.

Lemma send_to_gpu_present (img : Image) (gl : GL) (t : Z) :
  ogl_texture_id_ img = Some t ->
  send_to_gpu img gl =
    (img, gl_issue (glTexImage2D (width_ img) (height_ img) (image_ img))
            (gl_issue (glBindTexture t) gl)).
Proof. intros H. unfold send_to_gpu. rewrite H. reflexivity. Qed.

Lemma send_to_gpu_absent (img : Image) (gl : GL) :
  ogl_texture_id_ img = None ->
  send_to_gpu img gl =
    (with_texture_id img (Some (gl_next gl)),
     {| gl_next := gl_next gl + 1; gl_live := gl_next gl :: gl_live gl;
        gl_log := gl_log gl ++
          [glGenTextures (gl_next gl); glBindTexture (gl_next gl);
           glTexParameteri_linear GL_TEXTURE_MIN_FILTER;
           glTexParameteri_linear GL_TEXTURE_MAG_FILTER;
           glPixelStorei_unpack_row_length 0;
           glTexImage2D (width_ img) (height_ img) (image_ img)] |}).
Proof.
  intros H. unfold send_to_gpu. rewrite H. simpl.
  unfold gl_issue; simpl. rewrite <- !app_assoc. reflexivity.
Qed.

Lemma filter_removes (t : Z) (l : list Z) :
  ~ In t (filter (fun m => negb (m =? t)) l).
Proof.
  intros Hin. apply filter_In in Hin as [_ Hneq].
  rewrite Z.eqb_refl in Hneq. discriminate.
Qed.

(** ** Claims *)

(** C1: [send_to_gpu] moves the handle from absent to present, allocating
    exactly one texture object on the first call (with linear min/mag
    filtering and a full upload); a second call allocates nothing, keeps the
    handle returned by [ogl_texture_id()] unchanged, and re-uploads the full
    buffer into the existing texture. *)
Theorem send_to_gpu_idempotent (img : Image) (gl : GL)
    (img1 img2 : Image) (gl1 gl2 : GL) :
  send_to_gpu img gl = (img1, gl1) ->
  send_to_gpu img1 gl1 = (img2, gl2) ->
  on_gpu img1 = true /\
  (forall t, ogl_texture_id_ img = Some t -> ogl_texture_id_ img1 = Some t) /\
  (ogl_texture_id_ img = None ->
     exists t, ogl_texture_id_ img1 = Some t /\
       gl_log gl1 = gl_log gl ++
         [glGenTextures t; glBindTexture t;
          glTexParameteri_linear GL_TEXTURE_MIN_FILTER;
          glTexParameteri_linear GL_TEXTURE_MAG_FILTER;
          glPixelStorei_unpack_row_length 0;
          glTexImage2D (width_ img) (height_ img) (image_ img)]) /\
  gen_count (gl_log gl1) =
    (gen_count (gl_log gl) + (if on_gpu img then 0 else 1))%nat /\
  gen_count (gl_log gl2) = gen_count (gl_log gl1) /\
  ogl_texture_id_ img2 = ogl_texture_id_ img1 /\
  img2 = img1 /\
  (exists t, ogl_texture_id_ img1 = Some t /\
     gl_log gl2 = gl_log gl1 ++
       [glBindTexture t; glTexImage2D (width_ img1) (height_ img1) (image_ img1)]).
Proof.
  intros H1 H2.
  assert (Hsecond : forall t, ogl_texture_id_ img1 = Some t ->
            img2 = img1 /\
            gl_log gl2 = gl_log gl1 ++
              [glBindTexture t; glTexImage2D (width_ img1) (height_ img1) (image_ img1)]).
  { intros t Ht. rewrite (send_to_gpu_present img1 gl1 t Ht) in H2.
    inversion H2; subst. simpl. rewrite <- app_assoc. split; reflexivity. }
  destruct (ogl_texture_id_ img) as [t|] eqn:Himg.
  - rewrite (send_to_gpu_present img gl t Himg) in H1. inversion H1; subst.
    destruct (Hsecond t Himg) as [-> Hlog2].
    unfold on_gpu. rewrite Himg. simpl.
    repeat split; try congruence.
    + rewrite <- app_assoc, gen_count_app. simpl. lia.
    + rewrite Hlog2, gen_count_app. simpl. lia.
    + exists t. split; [reflexivity | exact Hlog2].
  - rewrite (send_to_gpu_absent img gl Himg) in H1. inversion H1; subst.
    simpl in Hsecond |- *.
    destruct (Hsecond (gl_next gl) eq_refl) as [-> Hlog2].
    unfold on_gpu; simpl. rewrite Himg.
    repeat split; try congruence.
    + exists (gl_next gl). split; reflexivity.
    + rewrite gen_count_app. simpl. lia.
    + rewrite Hlog2, gen_count_app. simpl. lia.
    + exists (gl_next gl). split; [reflexivity | exact Hlog2].
Qed.

Lemma send_to_gpu_idempotent_witness :
  ogl_texture_id_ (fst (send_to_gpu (fst (send_to_gpu (Image_new 1 2) (mkGL 7 [] [])))
                                    (snd (send_to_gpu (Image_new 1 2) (mkGL 7 [] [])))))
  = ogl_texture_id_ (fst (send_to_gpu (Image_new 1 2) (mkGL 7 [] []))) /\
  ogl_texture_id_ (fst (send_to_gpu (Image_new 1 2) (mkGL 7 [] []))) = Some 7.
Proof.
  destruct (send_to_gpu_idempotent (Image_new 1 2) (mkGL 7 [] [])
              (fst (send_to_gpu (Image_new 1 2) (mkGL 7 [] [])))
              (fst (send_to_gpu (fst (send_to_gpu (Image_new 1 2) (mkGL 7 [] [])))
                                (snd (send_to_gpu (Image_new 1 2) (mkGL 7 [] [])))))
              (snd (send_to_gpu (Image_new 1 2) (mkGL 7 [] [])))
              (snd (send_to_gpu (fst (send_to_gpu (Image_new 1 2) (mkGL 7 [] [])))
                                (snd (send_to_gpu (Image_new 1 2) (mkGL 7 [] [])))))
              eq_refl eq_refl)
    as [_ [_ [_ [_ [_ [Hid _]]]]]].
  split; [exact Hid | vm_compute; reflexivity].
Defined.

(** C2: [delete_from_gpu] deletes the texture and clears the handle when
    one exists and changes nothing (no GL call, no failure) when none exists,
    in particular on a never-uploaded image; [~Image] always runs it, so
    whether a scope owning the image is left normally or by an exception,
    afterwards the image holds no handle and the texture it held is no longer
    allocated. *)
Theorem delete_from_gpu_release (img : Image) (gl : GL) :
  (forall t, ogl_texture_id_ img = Some t ->
     delete_from_gpu img gl = (with_texture_id img None, gl_delete t gl) /\
     ~ In t (gl_live (snd (delete_from_gpu img gl)))) /\
  (ogl_texture_id_ img = None -> delete_from_gpu img gl = (img, gl)) /\
  (forall h w, delete_from_gpu (Image_new h w) gl = (Image_new h w, gl)) /\
  ogl_texture_id_ (fst (Image_destroy img gl)) = None /\
  (forall body how img' gl' how0 imgb glb t,
     body img gl = (how0, imgb, glb) ->
     ogl_texture_id_ imgb = Some t ->
     scoped body img gl = (how, img', gl') ->
     how = how0 /\ ogl_texture_id_ img' = None /\ ~ In t (gl_live gl') /\
     gl' = gl_delete t glb).
Proof.
  split; [|split; [|split; [|split]]].
  - intros t Ht. unfold delete_from_gpu. rewrite Ht. split; [reflexivity|].
    simpl. apply filter_removes.
  - intros Ht. unfold delete_from_gpu. rewrite Ht. reflexivity.
  - intros h w. reflexivity.
  - unfold Image_destroy, delete_from_gpu.
    destruct (ogl_texture_id_ img) eqn:Ht; simpl; [reflexivity | exact Ht].
  - intros body how img' gl' how0 imgb glb t Hbody Ht Hscope.
    unfold scoped in Hscope. rewrite Hbody in Hscope.
    unfold Image_destroy, delete_from_gpu in Hscope. rewrite Ht in Hscope.
    inversion Hscope; subst. simpl.
    split; [reflexivity|]. split; [reflexivity|]. split; [|reflexivity].
    apply filter_removes.
Qed.

Definition throwing_body (img : Image) (gl : GL) : exit_path * Image * GL :=
  (Exception_exit filesystem_error, img, gl).

Lemma delete_from_gpu_release_witness :
  ogl_texture_id_ (fst (Image_destroy (with_texture_id (Image_new 1 1) (Some 3)) (mkGL 4 [3] [])))
    = None /\
  ogl_texture_id_ (snd (fst (scoped throwing_body
                               (with_texture_id (Image_new 1 1) (Some 3)) (mkGL 4 [3] []))))
    = None /\
  ~ In 3 (gl_live (snd (scoped throwing_body
                          (with_texture_id (Image_new 1 1) (Some 3)) (mkGL 4 [3] [])))).
Proof.
  pose proof (delete_from_gpu_release (with_texture_id (Image_new 1 1) (Some 3)) (mkGL 4 [3] []))
    as [_ [_ [_ [Hd Hs]]]].
  split; [exact Hd|].
  destruct (Hs throwing_body
              (Exception_exit filesystem_error)
              (with_texture_id (with_texture_id (Image_new 1 1) (Some 3)) None)
              (gl_delete 3 (mkGL 4 [3] []))
              (Exception_exit filesystem_error)
              (with_texture_id (Image_new 1 1) (Some 3)) (mkGL 4 [3] []) 3
              eq_refl eq_refl eq_refl) as [_ [Hnone [Hlive _]]].
  split; [exact Hnone | exact Hlive].
Defined.

(** Lemmas on [std::vector::resize]. *)

Lemma vec_resize_length (n : Z) (v : list Pixel) :
  List.length (vec_resize n v) = Z.to_nat n.
Proof.
  unfold vec_resize. rewrite length_app, length_firstn, repeat_length. lia.
Qed.

Lemma vec_resize_kept (n : Z) (v : list Pixel) (i : nat) :
  (i < Z.to_nat n)%nat -> (i < List.length v)%nat ->
  nth_error (vec_resize n v) i = nth_error v i.
Proof.
  intros Hn Hv. unfold vec_resize.
  rewrite nth_error_app1 by (rewrite length_firstn; lia).
  rewrite nth_error_firstn. apply Nat.ltb_lt in Hn. rewrite Hn. reflexivity.
Qed.

Lemma vec_resize_appended (n : Z) (v : list Pixel) (i : nat) :
  (List.length v <= i)%nat -> (i < Z.to_nat n)%nat ->
  nth_error (vec_resize n v) i = Some Pixel_default.
Proof.
  intros Hv Hn. unfold vec_resize.
  rewrite nth_error_app2 by (rewrite length_firstn; lia).
  apply nth_error_repeat. rewrite length_firstn. lia.
Qed.

Definition black : Pixel := Pixel_rgba 0 0 0 255.

(** C3 (counterexample): a 1x1 image whose pixel is set to black and then
    resized to 1x2 gets an appended cell that is opaque white, [Pixel()]:
    the new cell is initialised to white. *)
Lemma resize_new_cell_is_white_cex :
  exists img,
    set_pixel (Image_new 1 1) 0 black = Ok img /\
    image_ (resize 1 2 img) = [black; Pixel_default] /\
    nth_error (image_ (resize 1 2 img)) 1 = Some (mkPixel 255 255 255 255).
Proof.
  exists (mkImage 1 1 [black] None).
  split; [reflexivity|]. split; reflexivity.
Qed.

(** C3 (amended): [resize(height, width)] sets the dimensions, leaves the
    texture handle alone, and resizes the buffer without moving existing
    data: every pixel at a linear index that survives is unchanged, and
    every cell appended at the end of the storage is opaque white [Pixel()]
    (value-initialised by [std::vector::resize]). *)
Theorem resize_keeps_prefix_appends_white (h w : Z) (img : Image) :
  height_ (resize h w img) = h /\
  width_ (resize h w img) = w /\
  ogl_texture_id_ (resize h w img) = ogl_texture_id_ img /\
  (forall i, (i < List.length (image_ (resize h w img)))%nat ->
     (i < List.length (image_ img))%nat ->
     nth_error (image_ (resize h w img)) i = nth_error (image_ img) i) /\
  (forall i, (List.length (image_ img) <= i)%nat ->
     (i < List.length (image_ (resize h w img)))%nat ->
     nth_error (image_ (resize h w img)) i = Some (mkPixel 255 255 255 255)).
Proof.
  split; [reflexivity|]. split; [reflexivity|]. split; [reflexivity|].
  assert (Hl : List.length (image_ (resize h w img)) = Z.to_nat (u32 (h * w)))
    by apply vec_resize_length.
  rewrite Hl. split.
  - intros i H1 H2. apply vec_resize_kept; assumption.
  - intros i H1 H2. apply vec_resize_appended; assumption.
Qed.

(** Lemmas for the buffer-length invariant. *)

Definition buffer_inv (img : Image) : Prop :=
  Z.of_nat (List.length (image_ img)) = u32 (height_ img * width_ img).

Lemma u32_nonneg (z : Z) : 0 <= u32 z.
Proof. unfold u32, u32_modulus. apply Z.mod_pos_bound. lia. Qed.

Lemma length_list_set {A} (l : list A) (n : nat) (x : A) :
  List.length (list_set l n x) = List.length l.
Proof.
  revert n; induction l as [|a l IH]; intros [|n]; simpl; rewrite ?IH; reflexivity.
Qed.

Lemma set_pixel_shape (img img' : Image) (i : Z) (p : Pixel) :
  set_pixel img i p = Ok img' ->
  height_ img' = height_ img /\ width_ img' = width_ img /\
  List.length (image_ img') = List.length (image_ img).
Proof.
  unfold set_pixel, vec_set.
  destruct (_ && _)%bool; intros H; inversion H; subst; simpl.
  split; [reflexivity|]. split; [reflexivity|]. apply length_list_set.
Qed.

Lemma copy_loop_shape (idx : list nat) (img img' : Image) (pdata : list Pixel) :
  copy_loop idx img pdata = Ok img' ->
  height_ img' = height_ img /\ width_ img' = width_ img /\
  List.length (image_ img') = List.length (image_ img).
Proof.
  revert img. induction idx as [|i idx IH]; intros img H; simpl in H.
  - inversion H; subst. auto.
  - destruct (nth_error pdata i) as [p|]; [|discriminate].
    destruct (set_pixel img (Z.of_nat i) p) as [img1| |] eqn:Hs; try discriminate.
    apply set_pixel_shape in Hs as [E1 [E2 E3]].
    apply IH in H as [F1 [F2 F3]]. rewrite F1, F2, F3, E1, E2, E3. auto.
Qed.

Lemma Image_new_inv (h w : Z) : buffer_inv (Image_new h w).
Proof.
  unfold buffer_inv, Image_new, vec_fill; simpl.
  rewrite repeat_length. rewrite Z2Nat.id by apply u32_nonneg. reflexivity.
Qed.

Lemma from_file_inv fe sl sr fname tr img :
  from_file fe sl sr fname = (tr, Ok img) -> buffer_inv img.
Proof.
  unfold from_file.
  destruct (fe fname) as [[|]|]; try (intros H; inversion H; fail).
  destruct (sl fname) as [[[iw ih] pdata]|]; [|intros H; inversion H].
  intros H. inversion H as [[Htr Hc]].
  apply copy_loop_shape in Hc as [E1 [E2 E3]].
  unfold buffer_inv. rewrite E1, E2, E3. apply Image_new_inv.
Qed.

Lemma image_step_inv (img img' : Image) :
  image_step img img' -> buffer_inv img -> buffer_inv img'.
Proof.
  intros Hs Hi. destruct Hs as [h w img Hh Hw|img i p img' Hset|img gl|img gl].
  - unfold buffer_inv; simpl. rewrite vec_resize_length.
    rewrite Z2Nat.id by apply u32_nonneg. reflexivity.
  - apply set_pixel_shape in Hset as [E1 [E2 E3]].
    unfold buffer_inv in *. rewrite E1, E2, E3. exact Hi.
  - unfold send_to_gpu. destruct (ogl_texture_id_ img).
    + exact Hi.
    + simpl. exact Hi.
  - unfold delete_from_gpu. destruct (ogl_texture_id_ img); exact Hi.
Qed.

Lemma reachable_inv (img : Image) : reachable img -> buffer_inv img.
Proof.
  induction 1 as [img Hc|img img' _ IH Hs].
  - destruct Hc as [h w _ _| |fe sl sr fname tr img Hf].
    + apply Image_new_inv.
    + reflexivity.
    + eapply from_file_inv; exact Hf.
  - eapply image_step_inv; eassumption.
Qed.

(** C4 (code bug): the constructor and [resize] both size the buffer with
    the unguarded [std::uint32_t] product [height_ * width_]. For the valid
    dimensions 65536 x 65536 it wraps to 0: [Image(65536, 65536)], and an
    image resized to 65536 x 65536, have an empty buffer although
    [height*width = 2^32]. *)
Lemma buffer_length_wraps_at_65536 :
  reachable (Image_new 65536 65536) /\
  List.length (image_ (Image_new 65536 65536)) = 0%nat /\
  reachable (resize 65536 65536 (Image_new 1 1)) /\
  List.length (image_ (resize 65536 65536 (Image_new 1 1))) = 0%nat /\
  height_ (Image_new 65536 65536) * width_ (Image_new 65536 65536) = 2 ^ 32.
Proof.
  split; [apply reach_init, created_new; unfold is_u32, u32_modulus; lia|].
  split; [vm_compute; reflexivity|].
  split.
  - apply (reach_step (Image_new 1 1)).
    + apply reach_init, created_new; unfold is_u32, u32_modulus; lia.
    + apply step_resize; unfold is_u32, u32_modulus; lia.
  - split; vm_compute; reflexivity.
Qed.

(** X16: on every image reached by construction (explicit dimensions,
    the private default constructor, [from_file]) followed by any sequence
    of [resize], pixel writes, [send_to_gpu] and [delete_from_gpu], the
    buffer length equals [size()], the 32-bit product
    [(height*width) mod 2^32]; it is [height*width] itself whenever that
    product is below 2^32. *)
Theorem buffer_length_is_u32_product (img : Image) :
  reachable img ->
  Z.of_nat (List.length (image_ img)) = size img /\
  Z.of_nat (List.length (image_ img)) = (height_ img * width_ img) mod 2 ^ 32 /\
  (0 <= height_ img * width_ img < 2 ^ 32 ->
   Z.of_nat (List.length (image_ img)) = height_ img * width_ img).
Proof.
  intros Hr. pose proof (reachable_inv img Hr) as Hi. unfold buffer_inv, u32, u32_modulus in Hi.
  unfold size, u32, u32_modulus. rewrite (Z.mul_comm (width_ img) (height_ img)).
  split; [exact Hi|]. split; [exact Hi|].
  intros Hb. rewrite Hi. apply Z.mod_small. exact Hb.
Qed.

Lemma buffer_length_is_u32_product_witness :
  Z.of_nat (List.length (image_ (resize 3 2 (Image_new 2 2)))) = 6.
Proof.
  destruct (buffer_length_is_u32_product (resize 3 2 (Image_new 2 2))) as [_ [_ H]].
  - apply (reach_step (Image_new 2 2)).
    + apply reach_init, created_new; unfold is_u32, u32_modulus; lia.
    + apply step_resize; unfold is_u32, u32_modulus; lia.
  - apply H. split; vm_compute; congruence.
Defined.

(** C5 (code bug): for [Image(65536, 65536)] the wrapped 32-bit product
    [height_ * width_] leaves the buffer empty, so [at(0, 0)] passes both
    bounds checks at valid coordinates and then reads past the end of the
    vector (undefined behaviour) instead of returning a pixel. *)
Lemma at_valid_coordinates_reads_past_end :
  0 < height_ (Image_new 65536 65536) /\ 0 < width_ (Image_new 65536 65536) /\
  at_ (Image_new 65536 65536) 0 0 = Undefined.
Proof. vm_compute. split; [reflexivity|]. split; reflexivity. Qed.

Lemma ge_false (a b : Z) : a < b -> (a >=? b) = false.
Proof. intros H. rewrite Z.geb_leb. apply Z.leb_gt. exact H. Qed.

(** X17: on every reachable image, [at(h, w)] throws [std::out_of_range]
    whenever [h >= height] or [w >= width]; at valid coordinates
    ([h < height], [w < width]) of an image whose pixel count
    [height*width] is below 2^32 it returns the pixel at linear index
    [w + h*width]. *)
Theorem at_bounds_checked (img : Image) (h w : Z) :
  reachable img -> 0 <= h -> 0 <= w ->
  ((h >= height_ img \/ w >= width_ img) ->
     exists msg, at_ img h w = Throw (out_of_range msg)) /\
  (h < height_ img -> w < width_ img -> height_ img * width_ img < 2 ^ 32 ->
     exists p, nth_error (image_ img) (Z.to_nat (w + h * width_ img)) = Some p /\
               at_ img h w = Ok p).
Proof.
  intros Hr Hh Hw. split.
  - intros Hout. unfold at_.
    destruct (h >=? height_ img) eqn:E1; [eexists; reflexivity|].
    destruct (w >=? width_ img) eqn:E2; [eexists; reflexivity|].
    rewrite Z.geb_leb, Z.leb_gt in E1, E2. lia.
  - intros Hlt1 Hlt2 Hsmall.
    pose proof (reachable_inv img Hr) as Hi. unfold buffer_inv, u32, u32_modulus in Hi.
    assert (Hw0 : 0 < width_ img) by lia.
    assert (Hprod : h * width_ img <= (height_ img - 1) * width_ img) by nia.
    rewrite Z.mod_small in Hi by nia.
    assert (Hidx : w + h * width_ img < Z.of_nat (List.length (image_ img))) by nia.
    destruct (nth_error (image_ img) (Z.to_nat (w + h * width_ img))) as [p|] eqn:Hn.
    + exists p. split; [reflexivity|].
      unfold at_. rewrite (ge_false h), (ge_false w) by assumption.
      unfold linear_index, u32, u32_modulus.
      rewrite (Z.mod_small (h * width_ img)) by nia.
      rewrite (Z.mod_small (w + h * width_ img)) by nia.
      unfold vec_get. rewrite (proj2 (Z.leb_le 0 (w + h * width_ img))) by nia.
      rewrite Hn. reflexivity.
    + apply nth_error_None in Hn. lia.
Qed.

Lemma at_bounds_checked_witness :
  (exists msg, at_ (Image_new 2 3) 2 0 = Throw (out_of_range msg)) /\
  at_ (Image_new 2 3) 1 2 = Ok Pixel_default.
Proof.
  assert (Hr : reachable (Image_new 2 3))
    by (apply reach_init, created_new; unfold is_u32, u32_modulus; lia).
  destruct (at_bounds_checked (Image_new 2 3) 2 0 Hr) as [Hout _]; [lia|lia|].
  destruct (at_bounds_checked (Image_new 2 3) 1 2 Hr) as [_ Hin]; [lia|lia|].
  split.
  - apply Hout. left. simpl. lia.
  - destruct Hin as [p [Hn Hat]]; [simpl; lia|simpl; lia|vm_compute; reflexivity|].
    rewrite Hat. vm_compute in Hn. inversion Hn. reflexivity.
Defined.

(** C6: [from_file] on a path that [std::filesystem::exists] reports
    missing throws the not-found [std::runtime_error] before [stbi_load] is
    ever called; on an existing path whose bytes [stbi_load] rejects it
    throws the decode-failure [std::runtime_error], whose message carries
    [stbi_failure_reason()]. The two messages are distinct. *)
Theorem from_file_error_conditions fe sl sr (fname : string) :
  (fe fname = Some false ->
     from_file fe sl sr fname =
       ([Io_exists fname], Throw (runtime_error (not_found_message fname))) /\
     ~ In (Io_stbi_load fname) (fst (from_file fe sl sr fname))) /\
  (fe fname = Some true -> sl fname = None ->
     from_file fe sl sr fname =
       ([Io_exists fname; Io_stbi_load fname],
        Throw (runtime_error (decode_failure_message (sr fname))))) /\
  (forall reason, exists prefix, decode_failure_message reason = (prefix ++ reason ++ nl)%string) /\
  (forall f reason, not_found_message f <> decode_failure_message reason).
Proof.
  split; [|split; [|split]].
  - intros He. unfold from_file. rewrite He. split; [reflexivity|].
    simpl. intros [H|H]; [discriminate | exact H].
  - intros He Hl. unfold from_file. rewrite He, Hl. reflexivity.
  - intros reason.
    exists ("ImApp::Image::from_file: stbi_load failure." ++ nl ++ "stbi_failure_reason: ")%string.
    reflexivity.
  - intros f reason. unfold not_found_message, decode_failure_message. simpl.
    discriminate.
Qed.

Lemma from_file_error_conditions_witness :
  from_file (fun _ => Some false) (fun _ => None) (fun _ => "bad"%string)
            "missing.png" =
    ([Io_exists "missing.png"], Throw (runtime_error (not_found_message "missing.png"))) /\
  from_file (fun _ => Some true) (fun _ => None) (fun _ => "unknown image type"%string)
            "notes.txt" =
    ([Io_exists "notes.txt"; Io_stbi_load "notes.txt"],
     Throw (runtime_error (decode_failure_message "unknown image type"))).
Proof.
  split.
  - apply (from_file_error_conditions (fun _ => Some false) (fun _ => None) (fun _ => "bad"%string)
             "missing.png").
    reflexivity.
  - apply (from_file_error_conditions (fun _ => Some true) (fun _ => None)
             (fun _ => "unknown image type"%string) "notes.txt"%string); reflexivity.
Defined.

Lemma back_snoc (ls : list Layer) (l : Layer) : back (ls ++ [l]) = Some l.
Proof. unfold back. rewrite map_app. apply last_last. Qed.

Lemma set_back_app_ptr_snoc (p : app_ref) (ls : list Layer) (l : Layer) :
  set_back_app_ptr p (ls ++ [l]) = ls ++ [set_app_ptr p l].
Proof.
  induction ls as [|x ls IH]; [reflexivity|].
  simpl. rewrite IH. destruct ls; reflexivity.
Qed.

Lemma push_layer_effect (l : Layer) (a : App) :
  push_layer l a =
    mkApp (self a) (layers_ a ++ [set_app_ptr (self a) l]) (viewports_enabled a)
          (trace a ++ [Ev_on_push (layer_id l) (app_ l)]).
Proof.
  unfold push_layer, call_on_push_back, set_layers, emit. simpl.
  rewrite back_snoc. simpl. rewrite set_back_app_ptr_snoc. reflexivity.
Qed.

(** C7: [push_layer] appends the layer at the end of [layers_], then calls
    its [on_push] hook, and only then sets its [app_] pointer: a layer built
    by [Layer()] sees [app() == nullptr] during [on_push], and afterwards
    its [app_] points at the owning App. *)
Theorem push_layer_order (a : App) (id : nat) :
  layers_ (push_layer (Layer_new id) a) = layers_ a ++ [mkLayer id (Some (self a))] /\
  trace (push_layer (Layer_new id) a) = trace a ++ [Ev_on_push id None] /\
  (forall l : Layer,
     layers_ (push_layer l a) = layers_ a ++ [set_app_ptr (self a) l] /\
     trace (push_layer l a) = trace a ++ [Ev_on_push (layer_id l) (app_ l)]).
Proof.
  split; [|split].
  - rewrite push_layer_effect. reflexivity.
  - rewrite push_layer_effect. reflexivity.
  - intros l. rewrite push_layer_effect. split; reflexivity.
Qed.

Lemma run_loop_shape (n : nat) (a : App) :
  self (run_loop n a) = self a /\ layers_ (run_loop n a) = layers_ a /\
  viewports_enabled (run_loop n a) = viewports_enabled a /\
  trace (run_loop n a) = trace a ++ List.concat (repeat (frame a) n).
Proof.
  revert a. induction n as [|n IH]; intros a; simpl.
  - rewrite app_nil_r. auto.
  - destruct (IH (emit (frame a) a)) as [E1 [E2 [E3 E4]]].
    rewrite E1, E2, E3, E4. simpl.
    unfold frame at 2. simpl. rewrite <- app_assoc. auto.
Qed.

(** C8: with layers A then B pushed, every frame of [run] calls A's
    [render] immediately before B's (nothing else in between, both after
    the frame has begun and before it is presented), and [~App] calls
    [on_kill] on A then on B, before the backends, the contexts and the
    window are destroyed. *)
Theorem layer_hooks_in_push_order (p : app_ref) (vp : bool) (tr : list event)
    (ida idb : nat) (n : nat) :
  let app := push_layer (Layer_new idb) (push_layer (Layer_new ida) (mkApp p [] vp tr)) in
  map layer_id (layers_ app) = [ida; idb] /\
  trace (run n app) = trace app ++ List.concat (repeat (frame app) n) /\
  frame app =
    [Ev_glfwPollEvents; Ev_ImGui_ImplOpenGL3_NewFrame; Ev_ImGui_ImplGlfw_NewFrame;
     Ev_ImGui_NewFrame] ++
    [Ev_render ida; Ev_render idb] ++
    [Ev_ImGui_Render; Ev_glViewport; Ev_glClear; Ev_ImGui_ImplOpenGL3_RenderDrawData] ++
    (if vp then [Ev_ImGui_UpdatePlatformWindows; Ev_ImGui_RenderPlatformWindowsDefault]
     else []) ++
    [Ev_glfwSwapBuffers] /\
  trace (App_destroy (run n app)) =
    trace (run n app) ++
    [Ev_on_kill ida; Ev_on_kill idb;
     Ev_ImGui_ImplOpenGL3_Shutdown; Ev_ImGui_ImplGlfw_Shutdown;
     Ev_ImPlot_DestroyContext; Ev_ImGui_DestroyContext;
     Ev_glfwDestroyWindow; Ev_glfwTerminate].
Proof.
  cbv zeta.
  set (app := push_layer (Layer_new idb) (push_layer (Layer_new ida) (mkApp p [] vp tr))).
  assert (Hl : layers_ app = [mkLayer ida (Some p); mkLayer idb (Some p)])
    by (subst app; rewrite !push_layer_effect; reflexivity).
  assert (Hv : viewports_enabled app = vp)
    by (subst app; rewrite !push_layer_effect; reflexivity).
  destruct (run_loop_shape n app) as [_ [E2 [_ E4]]].
  split; [rewrite Hl; reflexivity|].
  split; [exact E4|].
  split; [unfold frame; rewrite Hl, Hv; reflexivity|].
  unfold App_destroy, emit, run. simpl. rewrite E2, Hl. simpl.
  rewrite <- app_assoc. reflexivity.
Qed.

(** C9 (code bug): 65536 x 65536 are valid [std::uint32_t] dimensions, but
    [Image(65536, 65536)] holds no pixel at all instead of
    [65536 * 65536 = 2^32]: the constructor sizes the buffer with the
    wrapping 32-bit product [height_ * width_]. *)
Lemma Image_new_65536_has_no_pixels :
  is_u32 65536 /\
  List.length (image_ (Image_new 65536 65536)) = 0%nat /\
  Z.of_nat (List.length (image_ (Image_new 65536 65536))) <> 65536 * 65536.
Proof.
  split; [unfold is_u32, u32_modulus; lia|].
  vm_compute. split; [reflexivity | discriminate].
Qed.

(** X18: for [std::uint32_t] dimensions whose product [height*width] is
    below 2^32, [Image(height, width)] holds exactly [height*width] pixels,
    each the opaque white [Pixel()] (255,255,255,255), with the given height
    and width and no texture handle. *)
Theorem Image_new_all_white (h w : Z) :
  is_u32 h -> is_u32 w -> h * w < 2 ^ 32 ->
  Z.of_nat (List.length (image_ (Image_new h w))) = h * w /\
  Forall (fun px => px = mkPixel 255 255 255 255) (image_ (Image_new h w)) /\
  height_ (Image_new h w) = h /\ width_ (Image_new h w) = w /\
  ogl_texture_id_ (Image_new h w) = None.
Proof.
  intros Hh Hw Hp. unfold is_u32, u32_modulus in *.
  split; [|split; [|split; [reflexivity|split; reflexivity]]].
  - pose proof (Image_new_inv h w) as Hi. unfold buffer_inv, u32, u32_modulus in Hi.
    rewrite Hi. simpl. apply Z.mod_small. nia.
  - simpl. unfold vec_fill. apply Forall_forall. intros px Hin.
    apply repeat_spec in Hin. exact Hin.
Qed.

Lemma Image_new_all_white_witness :
  Z.of_nat (List.length (image_ (Image_new 2 3))) = 6 /\
  Forall (fun px => px = mkPixel 255 255 255 255) (image_ (Image_new 2 3)).
Proof.
  destruct (Image_new_all_white 2 3) as [Hl [Hf _]];
    [unfold is_u32, u32_modulus; lia | unfold is_u32, u32_modulus; lia | lia |].
  split; [exact Hl | exact Hf].
Defined.

(** C10: [size()] is the 32-bit product [(width*height) mod 2^32]; an image
    constructed with [height*width >= 2^32] gets a buffer of
    [(height*width) mod 2^32] pixels, not [height*width]. *)
Theorem size_is_u32_product (h w : Z) :
  (forall img, size img = (width_ img * height_ img) mod 2 ^ 32) /\
  (is_u32 h -> is_u32 w ->
   size (Image_new h w) = (w * h) mod 2 ^ 32 /\
   Z.of_nat (List.length (image_ (Image_new h w))) = (h * w) mod 2 ^ 32 /\
   (2 ^ 32 <= h * w -> Z.of_nat (List.length (image_ (Image_new h w))) <> h * w)).
Proof.
  split; [intros img; reflexivity|].
  intros _ _.
  pose proof (Image_new_inv h w) as Hi. unfold buffer_inv, u32, u32_modulus in Hi.
  split; [reflexivity|]. split; [exact Hi|].
  intros Hbig. rewrite Hi. simpl.
  pose proof (Z.mod_pos_bound (h * w) (2 ^ 32) ltac:(lia)). lia.
Qed.

Lemma size_is_u32_product_witness :
  size (Image_new 65536 65536) = 0 /\
  Z.of_nat (List.length (image_ (Image_new 65536 65536))) <> 65536 * 65536.
Proof.
  destruct (size_is_u32_product 65536 65536) as [_ H].
  destruct H as [Hs [_ Hne]]; [unfold is_u32, u32_modulus; lia | unfold is_u32, u32_modulus; lia |].
  split.
  - rewrite Hs. vm_compute. reflexivity.
  - apply Hne. lia.
Defined.

(** ** Further properties of the library *)

Lemma testbit_pow2 (i k : Z) : 0 <= i -> Z.testbit (2 ^ i) k = (i =? k).
Proof. intros Hi. apply Z.pow2_bits_eqb. exact Hi. Qed.

Lemma flag_set_testbit (i x : Z) : 0 <= i -> flag_set (2 ^ i) x = Z.testbit x i.
Proof.
  intros Hi. unfold flag_set.
  destruct (Z.testbit x i) eqn:Hb.
  - destruct (Z.eqb_spec (Z.land x (2 ^ i)) 0) as [H0|H0]; [|reflexivity].
    exfalso. assert (Ht : Z.testbit (Z.land x (2 ^ i)) i = true).
    { rewrite Z.land_spec, testbit_pow2, Z.eqb_refl, Hb by exact Hi. reflexivity. }
    rewrite H0, Z.testbit_0_l in Ht. discriminate.
  - replace (Z.land x (2 ^ i)) with 0; [reflexivity|].
    apply Z.bits_inj'. intros n Hn. rewrite Z.testbit_0_l, Z.land_spec, testbit_pow2 by exact Hi.
    destruct (Z.eqb_spec i n) as [->|_]; [rewrite Hb; reflexivity | rewrite andb_false_r; reflexivity].
Qed.

(** X1: the [enable_*] / [disable_*] methods of [App] turn exactly one
    ImGui configuration flag on or off: for a single-bit flag [2^i], after
    [enable] the flag tests set, after [disable] it tests clear, and every
    other single-bit flag keeps its value (e.g. disabling docking never
    changes the viewports flag that [run] tests). *)
Theorem config_flag_toggle (i j x : Z) :
  0 <= i -> 0 <= j -> i <> j ->
  flag_set (2 ^ i) (enable_flag (2 ^ i) x) = true /\
  flag_set (2 ^ i) (disable_flag (2 ^ i) x) = false /\
  flag_set (2 ^ j) (enable_flag (2 ^ i) x) = flag_set (2 ^ j) x /\
  flag_set (2 ^ j) (disable_flag (2 ^ i) x) = flag_set (2 ^ j) x.
Proof.
  intros Hi Hj Hij. rewrite !flag_set_testbit by assumption.
  unfold enable_flag, disable_flag.
  rewrite Z.lor_spec, Z.land_spec, Z.lnot_spec, testbit_pow2, Z.eqb_refl by lia.
  rewrite Z.lor_spec, Z.land_spec, Z.lnot_spec, testbit_pow2 by lia.
  apply Z.eqb_neq in Hij. rewrite Hij.
  rewrite orb_true_r, andb_false_r, orb_false_r, andb_true_r. auto.
Qed.

Lemma config_flag_toggle_witness :
  flag_set (2 ^ 10) (enable_flag (2 ^ 10) 1) = true /\
  flag_set (2 ^ 0) (disable_flag (2 ^ 10) 1) = flag_set (2 ^ 0) 1.
Proof.
  destruct (config_flag_toggle 10 0 1) as [H1 [_ [_ H4]]]; [lia|lia|lia|].
  split; [exact H1 | exact H4].
Defined.

(** X2: disabling a flag right after enabling it restores the flag word
    when the flag was off, and enabling it right after disabling it restores
    the word when the flag was on; enabling twice is enabling once. *)
Theorem config_flag_undo (i x : Z) :
  0 <= i ->
  (flag_set (2 ^ i) x = false -> disable_flag (2 ^ i) (enable_flag (2 ^ i) x) = x) /\
  (flag_set (2 ^ i) x = true -> enable_flag (2 ^ i) (disable_flag (2 ^ i) x) = x) /\
  enable_flag (2 ^ i) (enable_flag (2 ^ i) x) = enable_flag (2 ^ i) x.
Proof.
  intros Hi. rewrite flag_set_testbit by exact Hi.
  split; [|split].
  - intros Hb. apply Z.bits_inj'. intros n Hn. unfold enable_flag, disable_flag.
    rewrite Z.land_spec, Z.lor_spec, Z.lnot_spec, testbit_pow2 by assumption.
    destruct (Z.eqb_spec i n) as [<-|_].
    + rewrite Hb. reflexivity.
    + rewrite orb_false_r, andb_true_r. reflexivity.
  - intros Hb. apply Z.bits_inj'. intros n Hn. unfold enable_flag, disable_flag.
    rewrite Z.lor_spec, Z.land_spec, Z.lnot_spec, testbit_pow2 by assumption.
    destruct (Z.eqb_spec i n) as [<-|_].
    + rewrite Hb. reflexivity.
    + rewrite orb_false_r, andb_true_r. reflexivity.
  - unfold enable_flag. rewrite <- Z.lor_assoc, Z.lor_diag. reflexivity.
Qed.

Lemma config_flag_undo_witness :
  disable_flag (2 ^ 6) (enable_flag (2 ^ 6) 1) = 1.
Proof.
  destruct (config_flag_undo 6 1) as [H _]; [lia|].
  apply H. vm_compute. reflexivity.
Defined.

Lemma pixels_of_bytes_app (ps : list Pixel) :
  pixels_of_bytes (flat_map pixel_bytes ps) = ps.
Proof.
  induction ps as [|[r g b a] ps IH]; [reflexivity|]. simpl. rewrite IH. reflexivity.
Qed.

Lemma length_flat_map_pixel_bytes (ps : list Pixel) :
  List.length (flat_map pixel_bytes ps) = (4 * List.length ps)%nat.
Proof.
  induction ps as [|p ps IH]; [reflexivity|]. simpl. rewrite IH. lia.
Qed.

(** X3: the byte view [save_png], [save_jpg] and [set_icon] hand to the
    C libraries ([reinterpret_cast<unsigned char*>(image_.data())]) is four
    bytes r, g, b, a per pixel, and reading it back through
    [reinterpret_cast<Pixel*>] (as [from_file] does) gives back the pixels
    exactly. *)
Theorem image_bytes_roundtrip (img : Image) :
  pixels_of_bytes (image_bytes img) = image_ img /\
  List.length (image_bytes img) = (4 * List.length (image_ img))%nat /\
  (forall i p, nth_error (image_ img) i = Some p ->
     firstn 4 (skipn (4 * i) (image_bytes img)) = [r_ p; g_ p; b_ p; a_ p]).
Proof.
  unfold image_bytes. split; [apply pixels_of_bytes_app|].
  split; [apply length_flat_map_pixel_bytes|].
  generalize (image_ img) as ps.
  induction ps as [|q ps IH]; intros i p Hn; [destruct i; discriminate|].
  destruct i as [|i].
  - simpl in Hn. inversion Hn; subst. reflexivity.
  - simpl in Hn. destruct q as [r g b a].
    replace (4 * S i)%nat with (S (S (S (S (4 * i))))) by lia.
    simpl.
    apply IH. exact Hn.
Qed.

Lemma image_bytes_roundtrip_witness :
  firstn 4 (skipn 4 (image_bytes (mkImage 1 2 [Pixel_default; black] None))) = [0; 0; 0; 255].
Proof.
  destruct (image_bytes_roundtrip (mkImage 1 2 [Pixel_default; black] None)) as [_ [_ H]].
  apply (H 1%nat black). reflexivity.
Defined.

(** X4: [Image] has no user-defined copy constructor, so a copy of an
    uploaded image names the same texture. Destroying the copy deletes that
    texture while the original still reports [on_gpu()] with the same,
    now dangling, handle; destroying the original afterwards issues a
    second [glDeleteTextures] on the same name. *)
Theorem image_copy_shares_texture (img : Image) (gl : GL) (t : Z) :
  ogl_texture_id_ img = Some t ->
  ogl_texture_id_ (Image_copy img) = Some t /\
  on_gpu img = true /\
  ~ In t (gl_live (snd (Image_destroy (Image_copy img) gl))) /\
  gl_log (snd (Image_destroy img (snd (Image_destroy (Image_copy img) gl)))) =
    gl_log gl ++ [glDeleteTextures t; glDeleteTextures t].
Proof.
  intros Ht. unfold Image_copy, on_gpu, Image_destroy, delete_from_gpu. simpl.
  rewrite Ht. simpl. split; [reflexivity|]. split; [reflexivity|].
  split; [apply filter_removes|]. rewrite <- app_assoc. reflexivity.
Qed.

Lemma image_copy_shares_texture_witness :
  gl_log (snd (Image_destroy (with_texture_id (Image_new 1 1) (Some 5))
                 (snd (Image_destroy (Image_copy (with_texture_id (Image_new 1 1) (Some 5)))
                         (mkGL 6 [5] []))))) =
    [glDeleteTextures 5; glDeleteTextures 5].
Proof.
  destruct (image_copy_shares_texture (with_texture_id (Image_new 1 1) (Some 5))
              (mkGL 6 [5] []) 5 eq_refl) as [_ [_ [_ H]]].
  exact H.
Defined.

Lemma filter_below (l : list Z) (n : Z) :
  (forall m, In m l -> m < n) -> filter (fun m => negb (m =? n)) l = l.
Proof.
  induction l as [|m ms IH]; intros H; [reflexivity|].
  simpl. assert (Hm : m < n) by (apply H; left; reflexivity).
  replace (m =? n) with false by (symmetry; apply Z.eqb_neq; lia).
  simpl. f_equal. apply IH. intros m' Hin. apply H. right. exact Hin.
Qed.

(** X5: an upload followed by a release gives the texture name back: on an
    image with no texture and a driver whose allocated names are all below
    its next name, [send_to_gpu] then [delete_from_gpu] leaves the image
    without handle and the set of allocated textures as it was; a second
    [delete_from_gpu] changes nothing. *)
Theorem upload_release_cycle (img : Image) (gl : GL) :
  gl_wf gl -> ogl_texture_id_ img = None ->
  let '(img1, gl1) := send_to_gpu img gl in
  let '(img2, gl2) := delete_from_gpu img1 gl1 in
  ogl_texture_id_ img2 = None /\ image_ img2 = image_ img /\
  gl_live gl2 = gl_live gl /\
  gen_count (gl_log gl2) = S (gen_count (gl_log gl)) /\
  delete_from_gpu img2 gl2 = (img2, gl2).
Proof.
  intros Hwf Hnone. rewrite (send_to_gpu_absent img gl Hnone).
  unfold delete_from_gpu. simpl. rewrite Z.eqb_refl. simpl.
  split; [reflexivity|]. split; [reflexivity|]. split.
  - apply filter_below. exact Hwf.
  - split; [|reflexivity].
    rewrite <- app_assoc, gen_count_app. simpl. lia.
Qed.

Lemma upload_release_cycle_witness :
  gl_live (snd (delete_from_gpu (fst (send_to_gpu (Image_new 1 1) (mkGL 3 [0; 2] [])))
                                (snd (send_to_gpu (Image_new 1 1) (mkGL 3 [0; 2] []))))) =
    [0; 2].
Proof.
  pose proof (upload_release_cycle (Image_new 1 1) (mkGL 3 [0; 2] [])) as H.
  destruct H as [_ [_ [Hl _]]].
  - intros m [<-|[<-|[]]]; simpl; lia.
  - reflexivity.
  - exact Hl.
Defined.

(** X6: the unchecked [operator()(h, w)] does not check the column: the
    one-past-the-end column of row [h] is the first pixel of row [h + 1],
    where the checked [at(h, w)] throws [std::out_of_range]. *)
Theorem unchecked_column_wraps_to_next_row (img : Image) (h : Z) :
  pixel_at img h (width_ img) = pixel_at img (h + 1) 0 /\
  exists msg, at_ img h (width_ img) = Throw (out_of_range msg).
Proof.
  split.
  - unfold pixel_at, linear_index, u32.
    rewrite Z.add_mod_idemp_r by (unfold u32_modulus; lia).
    rewrite Z.add_0_l, Z.mod_mod by (unfold u32_modulus; lia).
    replace ((h + 1) * width_ img) with (width_ img + h * width_ img) by ring. reflexivity.
  - unfold at_. destruct (h >=? height_ img); [eexists; reflexivity|].
    rewrite Z.geb_leb, Z.leb_refl. eexists; reflexivity.
Qed.

Lemma firstn_list_set {A} (l : list A) (k : nat) (x : A) :
  (k < List.length l)%nat -> firstn (S k) (list_set l k x) = firstn k l ++ [x].
Proof.
  revert k. induction l as [|a l IH]; intros k Hk; [simpl in Hk; lia|].
  destruct k as [|k]; [reflexivity|].
  simpl in *. rewrite IH by lia. reflexivity.
Qed.

Lemma firstn_snoc_nth {A} (l : list A) (k : nat) (x : A) :
  nth_error l k = Some x -> firstn (S k) l = firstn k l ++ [x].
Proof.
  revert k. induction l as [|a l IH]; intros k Hk; [destruct k; discriminate|].
  destruct k as [|k]; simpl in *.
  - inversion Hk; reflexivity.
  - rewrite (IH k Hk). reflexivity.
Qed.

Lemma firstn_length_eq {A} (l : list A) (n : nat) : List.length l = n -> firstn n l = l.
Proof. intros <-. apply firstn_all. Qed.

Lemma set_pixel_in_range (img : Image) (k : nat) (p : Pixel) :
  (k < List.length (image_ img))%nat ->
  set_pixel img (Z.of_nat k) p =
    Ok {| height_ := height_ img; width_ := width_ img;
          image_ := list_set (image_ img) k p; ogl_texture_id_ := ogl_texture_id_ img |}.
Proof.
  intros Hk. unfold set_pixel, vec_set. rewrite Nat2Z.id.
  replace (0 <=? Z.of_nat k) with true by (symmetry; apply Z.leb_le; lia).
  replace (k <? List.length (image_ img))%nat with true by (symmetry; apply Nat.ltb_lt; exact Hk).
  reflexivity.
Qed.

Lemma copy_loop_full (m k : nat) (img : Image) (pdata : list Pixel) :
  List.length (image_ img) = (k + m)%nat -> (k + m <= List.length pdata)%nat ->
  firstn k (image_ img) = firstn k pdata ->
  copy_loop (seq k m) img pdata =
    Ok {| height_ := height_ img; width_ := width_ img; image_ := firstn (k + m) pdata;
          ogl_texture_id_ := ogl_texture_id_ img |}.
Proof.
  revert k img. induction m as [|m IH]; intros k img Hl Hp Hf.
  - simpl. rewrite Nat.add_0_r in *. rewrite <- Hf, firstn_length_eq by exact Hl.
    destruct img; reflexivity.
  - simpl. destruct (nth_error pdata k) as [p|] eqn:Hn.
    2:{ apply nth_error_None in Hn. lia. }
    rewrite set_pixel_in_range by lia.
    rewrite IH.
    + cbn [height_ width_ ogl_texture_id_].
      replace (S k + m)%nat with (k + S m)%nat by lia. reflexivity.
    + cbn [image_]. rewrite length_list_set. lia.
    + lia.
    + cbn [image_]. rewrite firstn_list_set by lia. rewrite Hf. symmetry. apply firstn_snoc_nth. exact Hn.
Qed.

Lemma copy_loop_short (m k : nat) (img : Image) (pdata : list Pixel) :
  List.length (image_ img) = (k + m)%nat -> (k <= List.length pdata)%nat ->
  (List.length pdata < k + m)%nat ->
  copy_loop (seq k m) img pdata = Undefined.
Proof.
  revert k img. induction m as [|m IH]; intros k img Hl Hk Hp; [lia|].
  simpl. destruct (nth_error pdata k) as [p|] eqn:Hn; [|reflexivity].
  assert (k < List.length pdata)%nat by (apply nth_error_Some; congruence).
  rewrite set_pixel_in_range by lia.
  apply IH; simpl; [rewrite length_list_set; lia | lia | lia].
Qed.

(** X7: when the file exists and [stbi_load] decodes it to a [w] x [h]
    buffer of pixels, [from_file] returns an image of height [h] and width
    [w] (cast to [std::uint32_t]) holding the first [size()] decoded pixels
    in order, with no texture, and frees the decoder's buffer; if the
    decoder returned fewer than [size()] pixels, the copy loop reads past
    its buffer (undefined behaviour). *)
Theorem from_file_decoded fe sl sr (fname : string) (iw ih : Z) (pdata : list Pixel) :
  fe fname = Some true -> sl fname = Some (iw, ih, pdata) ->
  ((Z.to_nat (u32 (u32 iw * u32 ih)) <= List.length pdata)%nat ->
   from_file fe sl sr fname =
     ([Io_exists fname; Io_stbi_load fname; Io_stbi_image_free],
      Ok (mkImage (u32 ih) (u32 iw) (firstn (Z.to_nat (u32 (u32 iw * u32 ih))) pdata) None))) /\
  ((List.length pdata < Z.to_nat (u32 (u32 iw * u32 ih)))%nat ->
   snd (from_file fe sl sr fname) = Undefined).
Proof.
  intros He Hl. unfold from_file. rewrite He, Hl. simpl.
  assert (Hlen : List.length (image_ (Image_new (u32 ih) (u32 iw))) =
                 Z.to_nat (u32 (u32 iw * u32 ih))).
  { simpl. unfold vec_fill. rewrite repeat_length, Z.mul_comm. reflexivity. }
  split.
  - intros Hp. unfold size. simpl.
    rewrite (copy_loop_full _ 0 (Image_new (u32 ih) (u32 iw)) pdata) by
      (simpl in *; try rewrite Hlen; try reflexivity; lia).
    reflexivity.
  - intros Hp. unfold size. simpl.
    apply (copy_loop_short _ 0); simpl in *; [rewrite Hlen; reflexivity | lia | lia].
Qed.

Lemma from_file_decoded_witness :
  from_file (fun _ => Some true) (fun _ => Some (2, 1, [black; Pixel_default; black]))
            (fun _ => EmptyString) "a.png"%string =
    ([Io_exists "a.png"; Io_stbi_load "a.png"; Io_stbi_image_free],
     Ok (mkImage 1 2 [black; Pixel_default] None)).
Proof.
  destruct (from_file_decoded (fun _ => Some true)
              (fun _ => Some (2, 1, [black; Pixel_default; black]))
              (fun _ => EmptyString) "a.png"%string 2 1 [black; Pixel_default; black]
              eq_refl eq_refl) as [H _].
  rewrite H by (vm_compute; lia). reflexivity.
Defined.

Lemma u32_range (z : Z) : is_u32 (u32 z).
Proof. unfold is_u32, u32, u32_modulus. apply Z.mod_pos_bound. lia. Qed.

Lemma from_file_dims fe sl sr fname tr img :
  from_file fe sl sr fname = (tr, Ok img) -> is_u32 (height_ img) /\ is_u32 (width_ img).
Proof.
  unfold from_file.
  destruct (fe fname) as [[|]|]; try (intros H; inversion H; fail).
  destruct (sl fname) as [[[iw ih] pdata]|]; [|intros H; inversion H].
  intros H. inversion H as [[Htr Hc]].
  apply copy_loop_shape in Hc as [E1 [E2 _]].
  rewrite E1, E2. split; apply u32_range.
Qed.

Lemma reachable_dims (img : Image) :
  reachable img -> is_u32 (height_ img) /\ is_u32 (width_ img).
Proof.
  induction 1 as [img Hc|img img' _ IH Hs].
  - destruct Hc as [h w Hh Hw| |fe sl sr fname tr img Hf].
    + split; assumption.
    + unfold is_u32, u32_modulus; simpl; lia.
    + eapply from_file_dims; exact Hf.
  - destruct Hs as [h w img Hh Hw|img i p img' Hset|img gl|img gl].
    + split; assumption.
    + apply set_pixel_shape in Hset as [E1 [E2 _]]. rewrite E1, E2. exact IH.
    + unfold send_to_gpu. destruct (ogl_texture_id_ img); exact IH.
    + unfold delete_from_gpu. destruct (ogl_texture_id_ img); exact IH.
Qed.

Lemma int_of_u32_small (z : Z) : 0 <= z < 2 ^ 31 -> int_of_u32 z = z.
Proof.
  intros Hz. unfold int_of_u32, u32, u32_modulus.
  rewrite Z.mod_small by lia.
  replace (z <? 2 ^ 31) with true by (symmetry; apply Z.ltb_lt; lia). reflexivity.
Qed.

Lemma reachable_length (img : Image) :
  reachable img -> height_ img * width_ img < 2 ^ 32 ->
  List.length (image_ img) = Z.to_nat (height_ img * width_ img).
Proof.
  intros Hr Hp. pose proof (reachable_inv img Hr) as Hi.
  pose proof (reachable_dims img Hr) as [Hh Hw]. unfold is_u32, u32_modulus in *.
  unfold buffer_inv, u32, u32_modulus in Hi. rewrite Z.mod_small in Hi by nia.
  lia.
Qed.

Lemma u32_int_of_u32 (z : Z) : is_u32 z -> u32 (int_of_u32 z) = z.
Proof.
  unfold is_u32, int_of_u32, u32, u32_modulus. intros Hz.
  rewrite (Z.mod_small z) by lia.
  destruct (z <? 2 ^ 31) eqn:E.
  - apply Z.mod_small. lia.
  - rewrite Zminus_mod, Z_mod_same_full, Z.sub_0_r, Z.mod_mod by lia.
    apply Z.mod_small. lia.
Qed.

Lemma save_png_ok_inv W (img : Image) (fname : string) :
  save_png W img fname = Ok true ->
  exists stride, W fname (int_of_u32 (width_ img)) (int_of_u32 (height_ img)) 4
                   (image_bytes img) stride <> 0.
Proof.
  unfold save_png. destruct (int_mul 4 (int_of_u32 (width_ img))) as [stride| |];
    try discriminate.
  intros H. inversion H as [H1]. exists stride. intros E. rewrite E in H1. discriminate.
Qed.

(** X8: PNG write-then-read: when [save_png] reports success on a
    reachable image, and the codec is lossless (a file [stbi_write_png]
    wrote successfully reads back through [stbi_load] with 4 channels as
    the same width, height and bytes), [from_file] on that file rebuilds
    an image with the same height, width and pixels, and no texture. *)
Theorem png_write_read_roundtrip fe W (slb : string -> option (Z * Z * list Z)) sr
    (fname : string) (img : Image) :
  reachable img ->
  fe fname = Some true ->
  (forall w h d stride, W fname w h 4 d stride <> 0 -> slb fname = Some (w, h, d)) ->
  save_png W img fname = Ok true ->
  from_file_bytes fe slb sr fname =
    ([Io_exists fname; Io_stbi_load fname; Io_stbi_image_free],
     Ok (mkImage (height_ img) (width_ img) (image_ img) None)).
Proof.
  intros Hr He Hcodec Hsave.
  destruct (save_png_ok_inv W img fname Hsave) as [stride Hw].
  apply Hcodec in Hw. clear Hcodec Hsave.
  pose proof (reachable_dims img Hr) as [Hh0 Hw0].
  pose proof (reachable_inv img Hr) as Hi. unfold buffer_inv in Hi.
  unfold from_file_bytes.
  destruct (from_file_decoded fe
              (fun f => match slb f with
                        | Some (w, h, bs) => Some (w, h, pixels_of_bytes bs)
                        | None => None
                        end) sr fname (int_of_u32 (width_ img)) (int_of_u32 (height_ img))
              (pixels_of_bytes (image_bytes img)))
    as [Hok _].
  - exact He.
  - rewrite Hw. reflexivity.
  - rewrite (u32_int_of_u32 _ Hw0), (u32_int_of_u32 _ Hh0) in Hok.
    rewrite (proj1 (image_bytes_roundtrip img)) in Hok.
    assert (Hn : Z.to_nat (u32 (width_ img * height_ img)) = List.length (image_ img))
      by (rewrite Z.mul_comm, <- Hi; apply Nat2Z.id).
    rewrite Hn, firstn_all in Hok. apply Hok. lia.
Qed.

Lemma png_write_read_roundtrip_witness :
  from_file_bytes (fun _ => Some true)
    (fun _ => Some (2, 1, png_demo_bytes))
    (fun _ => EmptyString) "out.png"%string =
    ([Io_exists "out.png"; Io_stbi_load "out.png"; Io_stbi_image_free],
     Ok (mkImage 1 2 [Pixel_default; black] None)).
Proof.
  assert (Hr : reachable (mkImage 1 2 [Pixel_default; black] None)).
  { apply (reach_step (Image_new 1 2)).
    - apply reach_init, created_new; unfold is_u32, u32_modulus; lia.
    - apply (step_set_pixel _ 1 black). reflexivity. }
  apply (png_write_read_roundtrip (fun _ => Some true) png_demo_writer
           (fun _ => Some (2, 1, png_demo_bytes))
           (fun _ => EmptyString) "out.png"%string (mkImage 1 2 [Pixel_default; black] None) Hr).
  - reflexivity.
  - intros w h d stride. unfold png_demo_writer.
    destruct (Z.eqb_spec w 2), (Z.eqb_spec h 1); simpl; try (intros E; exfalso; apply E; reflexivity).
    destruct (list_eq_dec Z.eq_dec d png_demo_bytes); [|intros E; exfalso; apply E; reflexivity].
    intros _. subst. reflexivity.
  - vm_compute. reflexivity.
Defined.

(** X9: [save_png] computes the row stride as the [int] product
    [4 * width], with the width converted to [int]. For a [std::uint32_t]
    width the call is undefined behaviour (signed overflow) exactly when
    [2^29 <= width < 2^32 - 2^29]. For [width < 2^29] and
    [height < 2^31] it passes the codec the width, the height, 4 channels,
    the r, g, b, a bytes of the buffer and the stride [4 * width], and
    reports success exactly when the codec returns nonzero. On a reachable
    image whose pixel count is below 2^32 the buffer holds exactly
    [4 * width * height] bytes. *)
Theorem save_png_call (W : string -> Z -> Z -> Z -> list Z -> Z -> Z) (img : Image)
    (fname : string) :
  (is_u32 (width_ img) ->
   (save_png W img fname = Undefined <-> 2 ^ 29 <= width_ img < 2 ^ 32 - 2 ^ 29)) /\
  (0 <= width_ img < 2 ^ 29 -> 0 <= height_ img < 2 ^ 31 ->
   save_png W img fname =
     Ok (negb (W fname (width_ img) (height_ img) 4 (image_bytes img) (4 * width_ img) =? 0))) /\
  (reachable img -> height_ img * width_ img < 2 ^ 32 ->
   Z.of_nat (List.length (image_bytes img)) = (4 * width_ img) * height_ img).
Proof.
  split; [|split].
  - intros Hw. unfold is_u32, u32_modulus in Hw. unfold save_png, int_mul, int_min, int_max.
    assert (Hi : int_of_u32 (width_ img) =
                 if width_ img <? 2 ^ 31 then width_ img else width_ img - 2 ^ 32)
      by (unfold int_of_u32, u32, u32_modulus; rewrite (Z.mod_small (width_ img)) by lia;
          reflexivity).
    rewrite Hi. cbv zeta.
    destruct (width_ img <? 2 ^ 31) eqn:E.
    + apply Z.ltb_lt in E.
      destruct ((- 2 ^ 31 <=? 4 * width_ img) && (4 * width_ img <=? 2 ^ 31 - 1))%bool eqn:F.
      * apply andb_true_iff in F as [F1 F2]. apply Z.leb_le in F1, F2.
        split; [intros Hu; discriminate Hu|lia].
      * split; [intros _|reflexivity].
        apply andb_false_iff in F as [F|F]; apply Z.leb_gt in F; lia.
    + apply Z.ltb_ge in E.
      destruct ((- 2 ^ 31 <=? 4 * (width_ img - 2 ^ 32)) &&
                (4 * (width_ img - 2 ^ 32) <=? 2 ^ 31 - 1))%bool eqn:F.
      * apply andb_true_iff in F as [F1 F2]. apply Z.leb_le in F1, F2.
        split; [intros Hu; discriminate Hu|lia].
      * split; [intros _|reflexivity].
        apply andb_false_iff in F as [F|F]; apply Z.leb_gt in F; lia.
  - intros Hw Hh. unfold save_png.
    rewrite (int_of_u32_small (width_ img)), (int_of_u32_small (height_ img)) by lia.
    unfold int_mul, int_min, int_max.
    replace ((- 2 ^ 31 <=? 4 * width_ img) && (4 * width_ img <=? 2 ^ 31 - 1))%bool
      with true by (symmetry; apply andb_true_iff; split; apply Z.leb_le; lia).
    reflexivity.
  - intros Hr Hp. rewrite (proj1 (proj2 (image_bytes_roundtrip img))).
    rewrite (reachable_length img Hr Hp).
    pose proof (reachable_dims img Hr) as [Hh Hw]. unfold is_u32 in *. nia.
Qed.

Lemma save_png_call_witness :
  save_png (fun _ _ _ _ _ _ => 1) (Image_new 2 3) "x.png"%string = Ok true /\
  save_png (fun _ _ _ _ _ _ => 1) (Image_new 0 (3 * 2 ^ 30)) "x.png"%string = Undefined.
Proof.
  split.
  - destruct (save_png_call (fun _ _ _ _ _ _ => 1) (Image_new 2 3) "x.png"%string)
      as [_ [H _]].
    rewrite H by (simpl; lia). reflexivity.
  - destruct (save_png_call (fun _ _ _ _ _ _ => 1) (Image_new 0 (3 * 2 ^ 30)) "x.png"%string)
      as [H _].
    apply H; simpl; unfold is_u32, u32_modulus; lia.
Defined.

(** X10: [set_icon] takes [&image[0]], which is undefined on an image with
    an empty buffer (e.g. zero width or height); on a reachable image with
    at least one row and column and fewer than 2^31 pixels it hands GLFW the
    image's width and height and its r, g, b, a bytes, exactly
    [4 * width * height] of them. *)
Theorem set_icon_image (img : Image) :
  (image_ img = [] -> set_icon img = Undefined) /\
  (reachable img -> 0 < height_ img -> 0 < width_ img -> height_ img * width_ img < 2 ^ 31 ->
   set_icon img = Ok (mkGLFWimage (width_ img) (height_ img) (image_bytes img)) /\
   Z.of_nat (List.length (image_bytes img)) = 4 * width_ img * height_ img).
Proof.
  split.
  - intros He. unfold set_icon, vec_get. rewrite He. reflexivity.
  - intros Hr Hh Hw Hp.
    assert (Hlen : List.length (image_ img) = Z.to_nat (height_ img * width_ img))
      by (apply reachable_length; [exact Hr | lia]).
    split.
    + destruct (nth_error (image_ img) 0) as [p|] eqn:Hn.
      * unfold set_icon, vec_get. change (Z.to_nat 0) with O. rewrite Hn. simpl.
        rewrite (int_of_u32_small (width_ img)), (int_of_u32_small (height_ img)) by nia.
        reflexivity.
      * apply nth_error_None in Hn. nia.
    + rewrite (proj1 (proj2 (image_bytes_roundtrip img))), Hlen. nia.
Qed.

Lemma set_icon_image_witness :
  set_icon (Image_new 0 4) = Undefined /\
  set_icon (Image_new 1 1) = Ok (mkGLFWimage 1 1 [255; 255; 255; 255]).
Proof.
  split.
  - apply (set_icon_image (Image_new 0 4)). reflexivity.
  - destruct (set_icon_image (Image_new 1 1)) as [_ H].
    destruct H as [H _]; [| simpl; lia | simpl; lia | simpl; lia |].
    + apply reach_init, created_new; unfold is_u32, u32_modulus; lia.
    + exact H.
Defined.

Lemma reachable_length_u32 (img : Image) :
  reachable img -> List.length (image_ img) = Z.to_nat (u32 (height_ img * width_ img)).
Proof.
  intros Hr. pose proof (reachable_inv img Hr) as Hi. unfold buffer_inv in Hi.
  rewrite <- Hi. rewrite Nat2Z.id. reflexivity.
Qed.

(** X11: resizing a reachable image to its current dimensions changes
    nothing: same dimensions, same pixels, same texture handle. *)
Theorem resize_same_dims (img : Image) :
  reachable img -> resize (height_ img) (width_ img) img = img.
Proof.
  intros Hr. pose proof (reachable_length_u32 img Hr) as Hl.
  unfold resize, vec_resize. rewrite <- Hl, firstn_all, Nat.sub_diag, app_nil_r.
  destruct img; reflexivity.
Qed.

Lemma resize_same_dims_witness :
  resize 2 2 (mkImage 2 2 [black; black; black; black] None) =
    mkImage 2 2 [black; black; black; black] None.
Proof.
  apply (resize_same_dims (mkImage 2 2 [black; black; black; black] None)).
  apply (reach_step (mkImage 2 2 [black; black; black; Pixel_default] None));
    [|apply (step_set_pixel _ 3 black); reflexivity].
  apply (reach_step (mkImage 2 2 [black; black; Pixel_default; Pixel_default] None));
    [|apply (step_set_pixel _ 2 black); reflexivity].
  apply (reach_step (mkImage 2 2 [black; Pixel_default; Pixel_default; Pixel_default] None));
    [|apply (step_set_pixel _ 1 black); reflexivity].
  apply (reach_step (Image_new 2 2));
    [|apply (step_set_pixel _ 0 black); reflexivity].
  apply reach_init, created_new; unfold is_u32, u32_modulus; lia.
Defined.

(** X12: shrinking a reachable image and growing it back to its original
    dimensions is lossy: the first [(h1*w1) mod 2^32] pixels survive in
    place and every later pixel is reset to opaque white. *)
Theorem resize_shrink_then_grow (img : Image) (h1 w1 : Z) :
  reachable img -> is_u32 h1 -> is_u32 w1 ->
  (Z.to_nat (u32 (h1 * w1)) <= List.length (image_ img))%nat ->
  let img' := resize (height_ img) (width_ img) (resize h1 w1 img) in
  height_ img' = height_ img /\ width_ img' = width_ img /\
  image_ img' = firstn (Z.to_nat (u32 (h1 * w1))) (image_ img) ++
                repeat Pixel_default (List.length (image_ img) - Z.to_nat (u32 (h1 * w1))).
Proof.
  intros Hr _ _ Hle. cbv zeta.
  split; [reflexivity|]. split; [reflexivity|].
  pose proof (reachable_length_u32 img Hr) as Hl.
  unfold resize, vec_resize. cbn [image_ height_ width_].
  replace (Z.to_nat (u32 (h1 * w1)) - List.length (image_ img))%nat with O by lia.
  rewrite app_nil_r, <- Hl.
  rewrite firstn_all2 by (rewrite length_firstn; lia).
  rewrite length_firstn. f_equal. f_equal. lia.
Qed.

Lemma resize_shrink_then_grow_witness :
  image_ (resize 1 2 (resize 1 1 (mkImage 1 2 [black; black] None))) = [black; Pixel_default].
Proof.
  assert (Hr : reachable (mkImage 1 2 [black; black] None)).
  { apply (reach_step (mkImage 1 2 [black; Pixel_default] None));
      [|apply (step_set_pixel _ 1 black); reflexivity].
    apply (reach_step (Image_new 1 2)); [|apply (step_set_pixel _ 0 black); reflexivity].
    apply reach_init, created_new; unfold is_u32, u32_modulus; lia. }
  destruct (resize_shrink_then_grow (mkImage 1 2 [black; black] None) 1 1 Hr)
    as [_ [_ H]]; [unfold is_u32, u32_modulus; lia | unfold is_u32, u32_modulus; lia
                   | vm_compute; lia |].
  exact H.
Defined.

(** X13: pushing layers one after another keeps them in push order: the
    stack is the old stack followed by the pushed layers, each now pointing
    at the App, and their [on_push] hooks ran in the same order, each
    seeing the layer's [app()] as it was before the push ([nullptr] for a
    layer built by [Layer()]). *)
Theorem push_layers_in_order (ls : list Layer) (a : App) :
  self (push_layers ls a) = self a /\
  layers_ (push_layers ls a) = layers_ a ++ map (set_app_ptr (self a)) ls /\
  trace (push_layers ls a) =
    trace a ++ map (fun l => Ev_on_push (layer_id l) (app_ l)) ls.
Proof.
  revert a. induction ls as [|l ls IH]; intros a; cbn [push_layers map].
  - rewrite !app_nil_r. auto.
  - destruct (IH (push_layer l a)) as [E1 [E2 E3]].
    rewrite E1, E2, E3, push_layer_effect. simpl.
    rewrite <- !app_assoc. auto.
Qed.

Lemma count_ev_app (p : event -> bool) (l1 l2 : list event) :
  count_ev p (l1 ++ l2) = (count_ev p l1 + count_ev p l2)%nat.
Proof.
  induction l1 as [|e l1 IH]; [reflexivity|]. simpl. rewrite IH. destruct (p e); reflexivity.
Qed.

Lemma count_ev_concat_repeat (p : event -> bool) (l : list event) (n : nat) :
  count_ev p (List.concat (repeat l n)) = (n * count_ev p l)%nat.
Proof.
  induction n as [|n IH]; [reflexivity|]. simpl. rewrite count_ev_app, IH. lia.
Qed.

Lemma count_swap_frame (a : App) : count_ev is_swap (frame a) = 1%nat.
Proof.
  unfold frame. rewrite !count_ev_app. simpl.
  assert (Hm : forall ls : list Layer,
             count_ev is_swap (map (fun l => Ev_render (layer_id l)) ls) = O)
    by (induction ls; simpl; auto).
  rewrite Hm. destruct (viewports_enabled a); reflexivity.
Qed.

Lemma count_render_frame (a : App) (id : nat) :
  count_ev (is_render_of id) (frame a) =
  count_ev (is_render_of id) (map (fun l => Ev_render (layer_id l)) (layers_ a)).
Proof.
  unfold frame. rewrite !count_ev_app. simpl.
  destruct (viewports_enabled a); simpl; lia.
Qed.

(** X14: [run] for [n] frames (the window reports close after [n] checks)
    presents exactly [n] frames ([glfwSwapBuffers] calls) and calls the
    [render] hook of every layer of the stack exactly once per frame; with
    the window already closed ([n = 0]) nothing is rendered. *)
Theorem run_counts (n : nat) (a : App) (id : nat) :
  count_ev is_swap (trace (run n a)) = (count_ev is_swap (trace a) + n)%nat /\
  count_ev (is_render_of id) (trace (run n a)) =
    (count_ev (is_render_of id) (trace a) +
     n * count_ev (is_render_of id) (map (fun l => Ev_render (layer_id l)) (layers_ a)))%nat /\
  (n = O -> run n a = a).
Proof.
  destruct (run_loop_shape n a) as [_ [_ [_ E4]]]. unfold run.
  rewrite E4, !count_ev_app, !count_ev_concat_repeat, count_swap_frame, count_render_frame.
  split; [lia|]. split; [reflexivity|]. intros ->. reflexivity.
Qed.

Lemma run_counts_witness :
  run O (App_new 1%nat) = App_new 1%nat.
Proof. apply (run_counts O (App_new 1%nat) 0%nat). reflexivity. Defined.

Lemma nth_error_list_set {A} (l : list A) (k i : nat) (x : A) :
  (k < List.length l)%nat ->
  nth_error (list_set l k x) i = if Nat.eqb i k then Some x else nth_error l i.
Proof.
  revert k i. induction l as [|a l IH]; intros k i Hk; [simpl in Hk; lia|].
  destruct k as [|k], i as [|i]; cbn [list_set nth_error Nat.eqb]; try reflexivity.
  apply IH. simpl in Hk. lia.
Qed.

Lemma linear_index_valid (img : Image) (h w : Z) :
  0 <= h < height_ img -> 0 <= w < width_ img -> height_ img * width_ img < 2 ^ 32 ->
  linear_index img h w = w + h * width_ img.
Proof.
  intros Hh Hw Hp. unfold linear_index, u32, u32_modulus.
  assert (h * width_ img <= (height_ img - 1) * width_ img) by nia.
  rewrite (Z.mod_small (h * width_ img)) by nia.
  apply Z.mod_small. nia.
Qed.

(** X15: assigning [p] through [at(h, w)] at valid coordinates of a
    reachable image whose pixel count fits in 32 bits succeeds, keeps the
    image reachable, makes [at(h, w)] read [p] back, and leaves the pixel at
    every other valid coordinate unchanged. *)
Theorem at_assign_then_read (img : Image) (h w : Z) (p : Pixel) :
  reachable img -> 0 <= h < height_ img -> 0 <= w < width_ img ->
  height_ img * width_ img < 2 ^ 32 ->
  exists img', at_assign img h w p = Ok img' /\ reachable img' /\
    at_ img' h w = Ok p /\
    (forall h' w', 0 <= h' < height_ img -> 0 <= w' < width_ img -> (h', w') <> (h, w) ->
       at_ img' h' w' = at_ img h' w').
Proof.
  intros Hr Hh Hw Hp.
  pose proof (reachable_length img Hr Hp) as Hlen.
  assert (Hidx : forall a b, 0 <= a < height_ img -> 0 <= b < width_ img ->
                 (Z.to_nat (b + a * width_ img) < List.length (image_ img))%nat).
  { intros a b Ha Hb. rewrite Hlen.
    assert (a * width_ img <= (height_ img - 1) * width_ img) by nia.
    apply Z2Nat.inj_lt; nia. }
  set (k := Z.to_nat (w + h * width_ img)).
  exists {| height_ := height_ img; width_ := width_ img;
            image_ := list_set (image_ img) k p; ogl_texture_id_ := ogl_texture_id_ img |}.
  assert (Hset : at_assign img h w p =
                 Ok {| height_ := height_ img; width_ := width_ img;
                       image_ := list_set (image_ img) k p;
                       ogl_texture_id_ := ogl_texture_id_ img |}).
  { unfold at_assign. rewrite (ge_false h), (ge_false w) by lia.
    rewrite linear_index_valid by lia.
    replace (w + h * width_ img) with (Z.of_nat k) by (unfold k; rewrite Z2Nat.id; nia).
    apply set_pixel_in_range. unfold k. apply Hidx; lia. }
  split; [exact Hset|]. split.
  - apply (reach_step img); [exact Hr|].
    unfold at_assign in Hset. rewrite (ge_false h), (ge_false w) in Hset by lia.
    eapply step_set_pixel. exact Hset.
  - split.
    + unfold at_. cbn [height_ width_ image_].
      rewrite (ge_false h), (ge_false w) by lia.
      rewrite (linear_index_valid {| height_ := height_ img; width_ := width_ img;
                                     image_ := list_set (image_ img) k p;
                                     ogl_texture_id_ := ogl_texture_id_ img |}) by (simpl; lia).
      unfold vec_get. cbn [width_ image_].
      replace (0 <=? w + h * width_ img) with true by (symmetry; apply Z.leb_le; nia).
      rewrite nth_error_list_set by (apply Hidx; lia).
      fold k. rewrite Nat.eqb_refl. reflexivity.
    + intros h' w' Hh' Hw' Hne. unfold at_. cbn [height_ width_ image_].
      rewrite (ge_false h'), (ge_false w') by lia.
      rewrite (linear_index_valid {| height_ := height_ img; width_ := width_ img;
                                     image_ := list_set (image_ img) k p;
                                     ogl_texture_id_ := ogl_texture_id_ img |}) by (simpl; lia).
      rewrite (linear_index_valid img) by lia.
      unfold vec_get. cbn [width_ image_].
      destruct (0 <=? w' + h' * width_ img); [|reflexivity].
      rewrite nth_error_list_set by (apply Hidx; lia).
      destruct (Nat.eqb_spec (Z.to_nat (w' + h' * width_ img)) k) as [Heq|]; [|reflexivity].
      exfalso. apply Hne. unfold k in Heq.
      apply Z2Nat.inj in Heq; [|nia|nia].
      assert (Hrow : h' = h).
      { destruct (Z.lt_trichotomy h' h) as [Hlt|[Heq'|Hgt]]; [nia|exact Heq'|nia]. }
      subst h'. f_equal. lia.
Qed.

Lemma at_assign_then_read_witness :
  exists img', at_assign (Image_new 2 2) 1 0 black = Ok img' /\ at_ img' 1 0 = Ok black.
Proof.
  destruct (at_assign_then_read (Image_new 2 2) 1 0 black) as [img' [H1 [_ [H2 _]]]].
  - apply reach_init, created_new; unfold is_u32, u32_modulus; lia.
  - simpl; lia.
  - simpl; lia.
  - simpl; lia.
  - exists img'. split; assumption.
Defined.
